(** * Hawaii family court legal automation: evidence drafter, compliance
      validator and model router

    A shallow embedding of [automation-engine/evidence_aware_drafter.py],
    [automation-engine/jurisdiction_registry.py] and
    [automation-engine/multi_model_fileboss.py], with the properties their
    specification states about them.

    Conventions.  A Python [str] is a [string], one [ascii] per character
    (text is taken to be ASCII); [len] is [String.length].  A Python [int]
    is a [Z].  A [dict] keyed by strings is a [gmap string _].
    A method of a mutable object takes the object and returns it again next
    to its outcome; a raised exception is the [inl] of the outcome, so that
    the state an exception leaves behind can be read off. *)

From Stdlib Require Import ZArith QArith Lqa Ascii.
From stdpp Require Import gmap strings list fin_maps sorting pretty.

Local Open Scope string_scope.
Local Open Scope Z_scope.

(** ** Python helpers *)

(** [sep.join(parts)]. *)
Fixpoint join (sep : string) (parts : list string) : string :=
  match parts with
  | [] => ""
  | [p] => p
  | p :: rest => p +:+ sep +:+ join sep rest
  end.

(** [s[:n]] for a non-negative [n]. *)
Fixpoint str_take (n : nat) (s : string) : string :=
  match n, s with
  | O, _ => ""
  | _, EmptyString => ""
  | S n', String a s' => String a (str_take n' s')
  end.

(** [str(i)] for an [int]. *)
Definition str_int (i : Z) : string := pretty i.

(** Truth value of an [Optional[str]]: [None] and [""] are false. *)
Definition truthy_ostr (o : option string) : bool :=
  match o with
  | Some (String _ _) => true
  | _ => false
  end.

(** [sub in s] for strings. *)
Fixpoint is_prefix (p s : string) : bool :=
  match p, s with
  | EmptyString, _ => true
  | String a p', String b s' => if Ascii.eqb a b then is_prefix p' s' else false
  | String _ _, EmptyString => false
  end.

Fixpoint str_contains (sub s : string) : bool :=
  if is_prefix sub s then true
  else match s with
       | EmptyString => false
       | String _ s' => str_contains sub s'
       end.

(** ** The evidence-aware drafter *)

Module Drafter.

(** [EvidenceSource]; [file_path] is a [Path], kept as its string. *)
Record EvidenceSource := {
  source_id : string;
  description : string;
  file_path : option string;
  page_numbers : option (list Z);
  exhibit_number : option string
}.

Record Citation := {
  text : string;
  evidence_ids : list string;
  location : Z
}.

(** [EvidenceRegistry.evidence]. *)
Abbreviation Registry := (gmap string EvidenceSource).

Definition register (reg : Registry) (evidence : EvidenceSource) : Registry :=
  <[source_id evidence := evidence]> reg.

Definition get (reg : Registry) (sid : string) : option EvidenceSource :=
  reg !! sid.

(** [cid not in self.evidence]. *)
Definition unregistered (reg : Registry) (cid : string) : bool :=
  match reg !! cid with
  | Some _ => false
  | None => true
  end.

Definition validate_citations (reg : Registry) (citation_ids : list string)
  : bool * list string :=
  let missing := List.filter (unregistered reg) citation_ids in
  (Nat.eqb (length missing) 0, missing).

(** [EvidenceAwareDrafter]: the registry it was built on and its citation
    log. *)
Record Drafter := {
  registry : Registry;
  citations : list Citation
}.

Definition new_drafter (reg : Registry) : Drafter :=
  {| registry := reg; citations := [] |}.

(** The two [ValueError]s of [draft_paragraph], told apart by what their
    message is built from: the content preview [content[:50]] alone
    ("Evidence required but not provided for: ..."), or the list of
    missing ids and the preview ("Invalid evidence IDs: ..."). *)
Inductive DraftError :=
  | MissingEvidence (preview : string)
  | UnknownEvidence (missing : list string) (preview : string).

(** The citation fragment of one evidence record: the body of the
    [if evidence:] branch in [_format_citations]. *)
Definition pages_part (pages : list Z) : list string :=
  match pages with
  | [] => []
  | [p] => ["p. " +:+ str_int p]
  | p :: _ => ["pp. " +:+ str_int p +:+ "-" +:+ str_int (List.last pages p)]
  end.

Definition cite_parts (evidence : EvidenceSource) : list string :=
  ((if truthy_ostr (exhibit_number evidence)
    then ["Ex. " +:+ default "" (exhibit_number evidence)]
    else [])
   ++ match page_numbers evidence with
      | Some pages => pages_part pages
      | None => []
      end)%list.

Definition fragment (evidence : EvidenceSource) : string :=
  join ", " (cite_parts evidence).

(** The loop of [_format_citations]: one fragment per id that resolves. *)
Fixpoint collect_fragments (reg : Registry) (ids : list string) : list string :=
  match ids with
  | [] => []
  | eid :: rest =>
      match get reg eid with
      | Some evidence => fragment evidence :: collect_fragments reg rest
      | None => collect_fragments reg rest
      end
  end.

Definition _format_citations (reg : Registry) (ids : list string) : string :=
  match ids with
  | [] => ""
  | _ => "(" +:+ join "; " (collect_fragments reg ids) +:+ ")"
  end.

Definition draft_paragraph (d : Drafter) (content : string)
    (ids : list string) (require_citation : bool)
  : (DraftError + string) * Drafter :=
  let proceed :=
    let citation_text := _format_citations (registry d) ids in
    let d' := {| registry := registry d;
                 citations := citations d ++
                   [{| text := content; evidence_ids := ids;
                       location := Z.of_nat (String.length content) |}] |} in
    (inr (content +:+ " " +:+ citation_text), d') in
  if require_citation then
    match ids with
    | [] => (inl (MissingEvidence (str_take 50 content)), d)
    | _ =>
        let '(is_valid, missing) := validate_citations (registry d) ids in
        if is_valid then proceed
        else (inl (UnknownEvidence missing (str_take 50 content)), d)
    end
  else proceed.

(** *** Claim patterns

    [validate_document] scans with four regular expressions.  They are
    written here as syntax trees for a backtracking matcher that explores
    alternatives in the order Python's [re] does (leftmost alternative
    first, greedy repetition first).  Documents are taken to be ASCII: a
    character above 127 belongs to no class. *)

Inductive regex :=
  | Lit (s : string)                 (* literal text *)
  | Cls (p : ascii → bool)           (* one character of a class *)
  | ClsPlus (p : ascii → bool)       (* [c+], greedy *)
  | Seq (r1 r2 : regex)
  | Alt (r1 r2 : regex).

Definition in_range (lo hi : N) (a : ascii) : bool :=
  let n := N_of_ascii a in ((lo <=? n) && (n <=? hi))%N.

(** [\d], [\w], [\s] and [[\d,]] on ASCII characters.  [\s] on [str]
    patterns also takes the four separators 0x1c-0x1f. *)
Definition cls_d (a : ascii) : bool := in_range 48 57 a.
Definition cls_w (a : ascii) : bool :=
  in_range 48 57 a || in_range 65 90 a || in_range 97 122 a
  || (N_of_ascii a =? 95)%N.
Definition cls_s (a : ascii) : bool :=
  in_range 9 13 a || in_range 28 31 a || (N_of_ascii a =? 32)%N.
Definition cls_d_comma (a : ascii) : bool :=
  cls_d a || (N_of_ascii a =? 44)%N.

Fixpoint strip_prefix (p s : string) : option string :=
  match p, s with
  | EmptyString, _ => Some s
  | String a p', String b s' =>
      if Ascii.eqb a b then strip_prefix p' s' else None
  | String _ _, EmptyString => None
  end.

(** Greedy [c*] followed by the continuation [k]: take one more character
    when possible, give it back when the rest fails. *)
Fixpoint star_cls (p : ascii → bool) (s : string)
    (k : string → option string) : option string :=
  match s with
  | String a s' =>
      if p a then
        match star_cls p s' k with
        | Some r => Some r
        | None => k s
        end
      else k s
  | EmptyString => k s
  end.

(** [re_match r s k]: match [r] at the head of [s], then [k] on what is
    left; the result is the text left after the whole match. *)
Fixpoint re_match (r : regex) (s : string)
    (k : string → option string) : option string :=
  match r with
  | Lit l =>
      match strip_prefix l s with
      | Some s' => k s'
      | None => None
      end
  | Cls p =>
      match s with
      | String a s' => if p a then k s' else None
      | EmptyString => None
      end
  | ClsPlus p =>
      match s with
      | String a s' => if p a then star_cls p s' k else None
      | EmptyString => None
      end
  | Seq r1 r2 => re_match r1 s (λ s', re_match r2 s' k)
  | Alt r1 r2 =>
      match re_match r1 s k with
      | Some rest => Some rest
      | None => re_match r2 s k
      end
  end.

(** A match object: [match.start()] and [match.group()]. *)
Record Match := {
  start : Z;
  group : string
}.

Global Instance Match_eq_dec : EqDecision Match.
Proof. solve_decision. Defined.

(** [re.finditer]: non-overlapping matches, left to right.  [skip] counts
    the characters of the previous match still to be passed over. *)
Fixpoint scan (r : regex) (s : string) (pos : Z) (skip : nat) : list Match :=
  match s with
  | EmptyString => []
  | String _ s' =>
      match skip with
      | S n => scan r s' (pos + 1) n
      | O =>
          match re_match r s Some with
          | Some rest =>
              let n := (String.length s - String.length rest)%nat in
              {| start := pos; group := str_take n s |}
                :: scan r s' (pos + 1) (Nat.pred n)
          | None => scan r s' (pos + 1) O
          end
      end
  end.

Definition finditer (r : regex) (document : string) : list Match :=
  scan r document 0 O.

(** [\d{4}]. *)
Definition four (r : regex) : regex := Seq r (Seq r (Seq r r)).

Definition claim_patterns : list regex := [
  (* Respondent \w+ (?:did|failed to|refused to) *)
  Seq (Lit "Respondent ") (Seq (ClsPlus cls_w) (Seq (Lit " ")
    (Alt (Lit "did") (Alt (Lit "failed to") (Lit "refused to")))));
  (* On \w+\s+\d+,\s+\d{4} *)
  Seq (Lit "On ") (Seq (ClsPlus cls_w) (Seq (ClsPlus cls_s)
    (Seq (ClsPlus cls_d) (Seq (Lit ",") (Seq (ClsPlus cls_s)
      (four (Cls cls_d)))))));
  (* \$[\d,]+ *)
  Seq (Lit "$") (ClsPlus cls_d_comma);
  (* \d+ (?:times|instances|occasions) *)
  Seq (ClsPlus cls_d) (Seq (Lit " ")
    (Alt (Lit "times") (Alt (Lit "instances") (Lit "occasions"))))
].

(** [any(abs(c.location - pos) < 200 for c in self.citations)]. *)
Definition has_nearby_citation (cs : list Citation) (pos : Z) : bool :=
  existsb (λ c, Z.abs (location c - pos) <? 200) cs.

(** The matches that [validate_document] keeps, pattern by pattern and in
    scan order, before it takes their text. *)
Definition uncited_matches (d : Drafter) (document : string) : list Match :=
  flat_map
    (λ pattern,
       List.filter (λ m, negb (has_nearby_citation (citations d) (start m)))
                   (finditer pattern document))
    claim_patterns.

Definition validate_document (d : Drafter) (document : string)
  : bool * list string :=
  let uncited_claims := group <$> uncited_matches d document in
  (Nat.eqb (length uncited_claims) 0, uncited_claims).

(** *** Exhibit list *)

Definition nl : string := String (ascii_of_N 10) "".

(** The body of the inner loop: [exhibits[evidence.exhibit_number] =
    evidence] when the id resolves and carries a non-empty label. *)
Definition exhibit_step (reg : Registry)
    (exhibits : gmap string EvidenceSource) (eid : string)
  : gmap string EvidenceSource :=
  match get reg eid with
  | Some evidence =>
      match exhibit_number evidence with
      | Some (String a l) => <[String a l := evidence]> exhibits
      | _ => exhibits
      end
  | None => exhibits
  end.

Definition collect_exhibits (reg : Registry) (cs : list Citation)
  : gmap string EvidenceSource :=
  foldl (λ exhibits c, foldl (exhibit_step reg) exhibits (evidence_ids c))
        ∅ cs.

(** [sorted(exhibits.keys())]: strings compare character by character. *)
Definition sorted_keys {V} (m : gmap string V) : list string :=
  merge_sort String.le (map_to_list m).*1.

Definition exhibit_item (exhibits : gmap string EvidenceSource)
    (ex_num : string) : list string :=
  match exhibits !! ex_num with
  | Some evidence =>
      ["  \item Exhibit " +:+ ex_num +:+ ": " +:+ description evidence]
  | None => []
  end.

Definition generate_exhibit_list (d : Drafter) : string :=
  let exhibits := collect_exhibits (registry d) (citations d) in
  let result :=
    (["\section*{Exhibits}" +:+ nl +:+ "\begin{enumerate}"]
     ++ flat_map (exhibit_item exhibits) (sorted_keys exhibits)
     ++ ["\end{enumerate}"])%list in
  join nl result.

End Drafter.

(** ** The drafter and the caller's list objects

    [draft_paragraph] stores in the [Citation] the very list object it
    was given ([evidence_ids=evidence_ids], no copy), so what a recorded
    citation names is whatever that object holds when it is read.  Here
    list objects have an identity and live in a store of the caller's. *)

Module DrafterObjects.
Import Drafter.

(** The caller's lists, by object identity. *)
Abbreviation Lists := (gmap nat (list string)).

Record CitationObj := {
  text_of : string;
  ids_at : nat;                 (* the list object held *)
  location_of : Z
}.

Record DrafterObj := {
  registry_of : Registry;
  citations_of : list CitationObj
}.

Definition read_list (ls : Lists) (a : nat) : list string :=
  default [] (ls !! a).

(** A citation, and the drafter, as they read under the current lists. *)
Definition read_citation (ls : Lists) (c : CitationObj) : Citation :=
  {| text := text_of c; evidence_ids := read_list ls (ids_at c);
     location := location_of c |}.

Definition snapshot (ls : Lists) (d : DrafterObj) : Drafter :=
  {| registry := registry_of d;
     citations := read_citation ls <$> citations_of d |}.

(** [draft_paragraph] called with the list object at [a]: the checks and
    the text are those of the list's present content; the citation
    appended holds the object. *)
Definition draft_paragraph_obj (ls : Lists) (d : DrafterObj)
    (content : string) (a : nat) (require_citation : bool)
  : (DraftError + string) * DrafterObj :=
  match (draft_paragraph (snapshot ls d) content (read_list ls a)
           require_citation).1 with
  | inr txt =>
      (inr txt,
       {| registry_of := registry_of d;
          citations_of := citations_of d ++
            [{| text_of := content; ids_at := a;
                location_of := Z.of_nat (String.length content) |}] |})
  | inl err => (inl err, d)
  end.

(** What a caller does, one step at a time: draft a paragraph with
    citation required (going on if it is refused), create a list or
    change one in place, register a source. *)
Inductive Action :=
  | Draft (content : string) (a : nat)
  | SetList (a : nat) (ids : list string)
  | Register (ev : EvidenceSource).

Definition act (s : Lists * DrafterObj) (x : Action) : Lists * DrafterObj :=
  match x with
  | Draft content a => (s.1, (draft_paragraph_obj s.1 s.2 content a true).2)
  | SetList a ids => (<[a := ids]> s.1, s.2)
  | Register ev =>
      (s.1, {| registry_of := register (registry_of s.2) ev;
               citations_of := citations_of s.2 |})
  end.

End DrafterObjects.

(** ** The jurisdiction registry and the compliance validator *)

Module Jurisdiction.

Inductive CourtLevel :=
  | STATE_FAMILY | STATE_DISTRICT | STATE_SUPREME
  | FEDERAL_DISTRICT | FEDERAL_CIRCUIT | FEDERAL_SUPREME.

(** [float] fields hold the decimal they are written with, as a [Q]. *)
Record FormattingRules := {
  font_family : string;
  font_size : Z;
  line_spacing : Q;
  margin_top : Q;
  margin_bottom : Q;
  margin_left : Q;
  margin_right : Q;
  page_number_location : string
}.

Record CitationRules := {
  case_citation_format : string;
  statute_citation_format : string;
  pin_cite_required : bool;
  short_form_rules : gmap string string
}.

Record FilingRules := {
  max_pages : option Z;
  certificate_of_service_required : bool;
  verification_required : bool;
  exhibits_must_be_labeled : bool;
  table_of_contents_required_pages : option Z;
  table_of_authorities_required : bool
}.

(** The values the [special_rules] dictionaries hold. *)
Inductive PyValue :=
  | PyBool (b : bool)
  | PyInt (i : Z)
  | PyStr (s : string).

Definition truthy (v : PyValue) : bool :=
  match v with
  | PyBool b => b
  | PyInt i => negb (i =? 0)
  | PyStr s => negb (Nat.eqb (String.length s) 0)
  end.

Record CourtProfile := {
  court_id : string;
  court_name : string;
  court_level : CourtLevel;
  jurisdiction : string;
  formatting : FormattingRules;
  citations : CitationRules;
  filing : FilingRules;
  special_rules : gmap string PyValue
}.

(** [JurisdictionRegistry.profiles]. *)
Abbreviation Profiles := (gmap string CourtProfile).

Definition register_profile (reg : Profiles) (profile : CourtProfile)
  : Profiles :=
  <[court_id profile := profile]> reg.

Definition get_profile (reg : Profiles) (cid : string)
  : option CourtProfile :=
  reg !! cid.

Definition default_formatting (font : string) (size : Z) : FormattingRules :=
  {| font_family := font; font_size := size; line_spacing := 2.0;
     margin_top := 1.0; margin_bottom := 1.0;
     margin_left := 1.0; margin_right := 1.0;
     page_number_location := "bottom center" |}.

Definition hi_family : CourtProfile :=
  {| court_id := "hi_family";
     court_name := "Hawaii Family Court";
     court_level := STATE_FAMILY;
     jurisdiction := "Hawaii";
     formatting := default_formatting "Times New Roman" 12;
     citations :=
       {| case_citation_format := "Bluebook";
          statute_citation_format := "Hawaii Revised Statutes";
          pin_cite_required := true; short_form_rules := ∅ |};
     filing :=
       {| max_pages := None;
          certificate_of_service_required := true;
          verification_required := true;
          exhibits_must_be_labeled := true;
          table_of_contents_required_pages := Some 25;
          table_of_authorities_required := false |};
     special_rules :=
       <["caption_format" := PyStr "hawaii_standard"]>
       (<["signature_block_required" := PyBool true]>
       (<["pro_se_notice_required" := PyBool true]> ∅)) |}.

Definition cand : CourtProfile :=
  {| court_id := "cand";
     court_name :=
       "United States District Court for the Northern District of California";
     court_level := FEDERAL_DISTRICT;
     jurisdiction := "California (Northern District)";
     formatting := default_formatting "Times New Roman" 12;
     citations :=
       {| case_citation_format := "Bluebook";
          statute_citation_format := "U.S.C.";
          pin_cite_required := true; short_form_rules := ∅ |};
     filing :=
       {| max_pages := Some 25;
          certificate_of_service_required := true;
          verification_required := false;
          exhibits_must_be_labeled := true;
          table_of_contents_required_pages := Some 25;
          table_of_authorities_required := true |};
     special_rules :=
       <["ecf_filing_required" := PyBool true]>
       (<["local_rules_apply" := PyStr "CAND Local Rules"]>
       (<["civil_lr_compliance" := PyBool true]> ∅)) |}.

Definition ca9 : CourtProfile :=
  {| court_id := "ca9";
     court_name := "United States Court of Appeals for the Ninth Circuit";
     court_level := FEDERAL_CIRCUIT;
     jurisdiction := "Ninth Circuit";
     formatting := default_formatting "Century Schoolbook" 14;
     citations :=
       {| case_citation_format := "Bluebook";
          statute_citation_format := "U.S.C.";
          pin_cite_required := true; short_form_rules := ∅ |};
     filing :=
       {| max_pages := Some 14000;
          certificate_of_service_required := true;
          verification_required := false;
          exhibits_must_be_labeled := true;
          table_of_contents_required_pages := Some 1;
          table_of_authorities_required := true |};
     special_rules :=
       <["word_count_limit" := PyInt 14000]>
       (<["certificate_of_compliance_required" := PyBool true]>
       (<["separate_volume_for_excerpts" := PyBool true]> ∅)) |}.

(** [JurisdictionRegistry()]: the three default profiles. *)
Definition _load_default_profiles : Profiles :=
  register_profile (register_profile (register_profile ∅ hi_family) cand) ca9.

(** [str.lower()] on ASCII text. *)
Definition lower_ascii (a : ascii) : ascii :=
  let n := N_of_ascii a in
  if ((65 <=? n) && (n <=? 90))%N then ascii_of_N (n + 32) else a.

Fixpoint lower (s : string) : string :=
  match s with
  | EmptyString => EmptyString
  | String a s' => String (lower_ascii a) (lower s')
  end.

(** What the validator asks of the file system, in order. *)
Inductive FsOp :=
  | Exists (path : string)
  | ReadText (path : string).

Section Validator.

(** [str(x)] for a [float] is the interpreter's own. *)
Variable float_str : Q → string.

Definition _check_formatting (content : string) (rules : FormattingRules)
  : list string :=
  ((if negb (Nat.eqb (String.length (font_family rules)) 0)
       && negb (str_contains
                  ("\setmainfont{" +:+ font_family rules +:+ "}") content)
    then ["Required font '" +:+ font_family rules +:+ "' not specified"]
    else [])
   ++
   (if negb (Qeq_bool (line_spacing rules) 0)
       && negb (str_contains ("\" +:+ float_str (line_spacing rules))
                             content)
    then ["Required line spacing " +:+ float_str (line_spacing rules)
          +:+ " not set"]
    else []))%list.

Definition _check_filing_rules (content : string) (rules : FilingRules)
  : list string :=
  ((if certificate_of_service_required rules
       && negb (str_contains "certificate of service" (lower content))
    then ["Certificate of Service required but not found"] else [])
   ++
   (if verification_required rules
       && negb (str_contains "verification" (lower content))
    then ["Verification required but not found"] else [])
   ++
   (if table_of_authorities_required rules
       && negb (str_contains "table of authorities" (lower content))
    then ["Table of Authorities required but not found"] else []))%list.

(** [rules.get(key)] used as a condition. *)
Definition flagged (rules : gmap string PyValue) (key : string) : bool :=
  match rules !! key with
  | Some v => truthy v
  | None => false
  end.

Definition _check_special_rules (content : string)
    (rules : gmap string PyValue) : list string :=
  ((if flagged rules "pro_se_notice_required"
       && negb (str_contains "pro se" (lower content))
    then ["Pro se notice may be required for self-represented litigants"]
    else [])
   ++
   (if flagged rules "certificate_of_compliance_required"
       && negb (str_contains "certificate of compliance" (lower content))
    then ["Certificate of Compliance required but not found"]
    else []))%list.

(** [ComplianceValidator.validate_document].  [fs] maps the paths that
    exist to their text; the second component lists the file-system
    calls made. *)
Definition validate_document (reg : Profiles) (fs : gmap string string)
    (document_path : string) (cid : string)
  : (bool * list string) * list FsOp :=
  match get_profile reg cid with
  | None => ((false, ["Unknown court ID: " +:+ cid]), [])
  | Some profile =>
      let '(content, ops) :=
        match fs !! document_path with
        | Some txt => (txt, [Exists document_path; ReadText document_path])
        | None => ("", [Exists document_path])
        end in
      let violations :=
        (_check_formatting content (formatting profile)
         ++ _check_filing_rules content (filing profile)
         ++ _check_special_rules content (special_rules profile))%list in
      ((Nat.eqb (length violations) 0, violations), ops)
  end.

End Validator.

(** A rendering of floats with one decimal digit, as [str] gives for the
    line spacings of the default profiles ([2.0]). *)
Definition one_decimal_str (x : Q) : string :=
  let tenths := (Qnum x * 10) / Z.pos (Qden x) in
  str_int (tenths / 10) +:+ "." +:+ str_int (tenths mod 10).

End Jurisdiction.

(** ** The model router *)

Module FileBoss.

Inductive ModelType :=
  | GPT4 | CLAUDE_3_OPUS | CLAUDE_3_SONNET | PERPLEXITY | LOCAL_LLAMA.

Inductive TaskType :=
  | LEGAL_RESEARCH | DOCUMENT_GENERATION | LEGAL_ANALYSIS
  | EVIDENCE_REVIEW | CITATION_CHECKING.

Global Instance ModelType_eq_dec : EqDecision ModelType.
Proof. solve_decision. Defined.

Record ModelProfile := {
  model_type : ModelType;
  strengths : list TaskType;
  max_context : Z;
  cost_per_1k_tokens : Q;
  avg_latency : Q;
  reliability : Q
}.

Record TaskResult := {
  success : bool;
  output : option string;
  model_used : ModelType;
  execution_time : Q;
  tokens_used : Z;
  error : option string
}.

(** [self.profiles] and [self.fallback_chains] are built once in
    [__init__], hold every member of their key enumeration and are never
    written again: they are the two tables below.  What is left of a
    router is its performance log. *)
Definition _initialize_profiles (m : ModelType) : ModelProfile :=
  match m with
  | GPT4 =>
      {| model_type := GPT4;
         strengths := [LEGAL_ANALYSIS; DOCUMENT_GENERATION; CITATION_CHECKING];
         max_context := 128000; cost_per_1k_tokens := 0.03;
         avg_latency := 2.5; reliability := 0.95 |}
  | CLAUDE_3_OPUS =>
      {| model_type := CLAUDE_3_OPUS;
         strengths := [LEGAL_RESEARCH; DOCUMENT_GENERATION; LEGAL_ANALYSIS];
         max_context := 200000; cost_per_1k_tokens := 0.015;
         avg_latency := 3.0; reliability := 0.93 |}
  | CLAUDE_3_SONNET =>
      {| model_type := CLAUDE_3_SONNET;
         strengths := [EVIDENCE_REVIEW; CITATION_CHECKING];
         max_context := 200000; cost_per_1k_tokens := 0.003;
         avg_latency := 1.5; reliability := 0.90 |}
  | PERPLEXITY =>
      {| model_type := PERPLEXITY;
         strengths := [LEGAL_RESEARCH];
         max_context := 16000; cost_per_1k_tokens := 0.001;
         avg_latency := 2.0; reliability := 0.88 |}
  | LOCAL_LLAMA =>
      {| model_type := LOCAL_LLAMA;
         strengths := [CITATION_CHECKING; EVIDENCE_REVIEW];
         max_context := 32000; cost_per_1k_tokens := 0.0;
         avg_latency := 5.0; reliability := 0.75 |}
  end.

Definition _initialize_fallbacks (t : TaskType) : list ModelType :=
  match t with
  | LEGAL_RESEARCH => [PERPLEXITY; CLAUDE_3_OPUS; GPT4]
  | DOCUMENT_GENERATION => [CLAUDE_3_OPUS; GPT4; CLAUDE_3_SONNET]
  | LEGAL_ANALYSIS => [GPT4; CLAUDE_3_OPUS; CLAUDE_3_SONNET]
  | EVIDENCE_REVIEW => [CLAUDE_3_SONNET; GPT4; LOCAL_LLAMA]
  | CITATION_CHECKING => [CLAUDE_3_SONNET; LOCAL_LLAMA; GPT4]
  end.

Record ModelRouter := {
  performance_log : list TaskResult
}.

Definition new_router : ModelRouter := {| performance_log := [] |}.

(** [TaskType(task_type)]: the member with that value, or [ValueError]. *)
Definition TaskType_of_value (s : string) : option TaskType :=
  if String.eqb s "legal_research" then Some LEGAL_RESEARCH
  else if String.eqb s "document_generation" then Some DOCUMENT_GENERATION
  else if String.eqb s "legal_analysis" then Some LEGAL_ANALYSIS
  else if String.eqb s "evidence_review" then Some EVIDENCE_REVIEW
  else if String.eqb s "citation_checking" then Some CITATION_CHECKING
  else None.

Definition Qltb (x y : Q) : bool :=
  match (x ?= y)%Q with
  | Lt => true
  | _ => false
  end.

(** [min(items, key=key)] and [max(items, key=key)] after the first item:
    the running best is replaced only by a strictly better one. *)
Fixpoint min_by {A} (key : A → Q) (best : A) (items : list A) : A :=
  match items with
  | [] => best
  | x :: rest =>
      if Qltb (key x) (key best) then min_by key x rest
      else min_by key best rest
  end.

Fixpoint max_by {A} (key : A → Q) (best : A) (items : list A) : A :=
  match items with
  | [] => best
  | x :: rest =>
      if Qltb (key best) (key x) then max_by key x rest
      else max_by key best rest
  end.

(** The candidates [select_model] chooses among: the task's chain, kept
    to the models whose context is large enough when a non-zero
    [context_size] is given. *)
Definition candidates_for (task_type : string) (context_size : option Z)
  : list ModelType :=
  let task := default LEGAL_ANALYSIS (TaskType_of_value task_type) in
  let candidates := _initialize_fallbacks task in
  match context_size with
  | Some n =>
      if n =? 0 then candidates
      else List.filter
             (λ model, n <=? max_context (_initialize_profiles model))
             candidates
  | None => candidates
  end.

Definition cost_of (m : ModelType) : Q :=
  cost_per_1k_tokens (_initialize_profiles m).
Definition latency_of (m : ModelType) : Q :=
  avg_latency (_initialize_profiles m).
Definition reliability_of (m : ModelType) : Q :=
  reliability (_initialize_profiles m).

Definition select_model (task_type : string) (context_size : option Z)
    (priority : string) : ModelType :=
  match candidates_for task_type context_size with
  | [] => GPT4
  | c :: rest =>
      if String.eqb priority "cost" then min_by cost_of c rest
      else if String.eqb priority "speed" then min_by latency_of c rest
      else max_by reliability_of c rest
  end.

(** The exception the fall-through return would raise on an empty chain
    ([fallback_chain[0]]). *)
Inductive PyError := IndexError.

Section Execute.

(** The world a task function runs in, the clock included.  A task
    function returns its output, or the text of the exception it
    raised, and the world it leaves. *)
Variable World : Type.
Variable time_time : World → Q.
Variable task_fn : ModelType → World → (string + string) * World.

Record Run := {
  result : PyError + TaskResult;
  router : ModelRouter;
  world : World;
  invoked : list ModelType     (* the models [task_fn] was called with *)
}.

Definition log_append (r : ModelRouter) (res : TaskResult) : ModelRouter :=
  {| performance_log := performance_log r ++ [res] |}.

(** The [for] loop; [None] when it runs out without returning. *)
Fixpoint walk_chain (last : option ModelType) (chain : list ModelType)
    (r : ModelRouter) (w : World) (calls : list ModelType) : option Run :=
  match chain with
  | [] => None
  | model :: rest =>
      let start_time := time_time w in
      match task_fn model w with
      | (inr out, w') =>
          let res := {| success := true; output := Some out;
                        model_used := model;
                        execution_time := time_time w' - start_time;
                        tokens_used := 0; error := None |} in
          Some {| result := inr res; router := log_append r res;
                  world := w'; invoked := calls ++ [model] |}
      | (inl e, w') =>
          let res := {| success := false; output := None;
                        model_used := model;
                        execution_time := time_time w' - start_time;
                        tokens_used := 0; error := Some e |} in
          if decide (Some model = last)
          then Some {| result := inr res; router := log_append r res;
                       world := w'; invoked := calls ++ [model] |}
          else walk_chain last rest (log_append r res) w' (calls ++ [model])
      end
  end.

Definition execute_with_fallback (r : ModelRouter) (task_type : TaskType)
    (w : World) : Run :=
  let fallback_chain := _initialize_fallbacks task_type in
  match walk_chain (last fallback_chain) fallback_chain r w [] with
  | Some run => run
  | None =>
      {| result :=
           match fallback_chain with
           | [] => inl IndexError
           | m0 :: _ =>
               inr {| success := false; output := None; model_used := m0;
                      execution_time := 0; tokens_used := 0;
                      error := Some "No models available" |}
           end;
         router := r; world := w; invoked := [] |}
  end.

End Execute.

Arguments result {World} _.
Arguments router {World} _.
Arguments world {World} _.
Arguments invoked {World} _.

(** *** Calls that do not come back

    The handler of the loop is [except Exception].  A task function can
    also raise outside [Exception] ([KeyboardInterrupt], [SystemExit]),
    which the handler lets through to the caller of
    [execute_with_fallback], or never return.  Either way the call does
    not come back to the loop: nothing is logged for it and no result is
    returned. *)
Inductive Outcome :=
  | Returned (out : string)
  | Raised (msg : string)        (* an [Exception], caught *)
  | Escaped.                     (* not caught, or no return *)

Section ExecuteAny.

Variable World : Type.
Variable time_time : World → Q.
Variable task : ModelType → World → Outcome * World.

(** Where a call that does not come back leaves things: the log with the
    failures recorded before it, and the models called so far, that call
    included. *)
Record Unwound := {
  router_left : ModelRouter;
  world_left : World;
  invoked_so_far : list ModelType
}.

Fixpoint walk_chain_any (last : option ModelType) (chain : list ModelType)
    (r : ModelRouter) (w : World) (calls : list ModelType)
  : option (Unwound + Run World) :=
  match chain with
  | [] => None
  | model :: rest =>
      let start_time := time_time w in
      match task model w with
      | (Returned out, w') =>
          let res := {| success := true; output := Some out;
                        model_used := model;
                        execution_time := time_time w' - start_time;
                        tokens_used := 0; error := None |} in
          Some (inr {| result := inr res; router := log_append r res;
                       world := w'; invoked := calls ++ [model] |})
      | (Raised e, w') =>
          let res := {| success := false; output := None;
                        model_used := model;
                        execution_time := time_time w' - start_time;
                        tokens_used := 0; error := Some e |} in
          if decide (Some model = last)
          then Some (inr {| result := inr res; router := log_append r res;
                            world := w'; invoked := calls ++ [model] |})
          else walk_chain_any last rest (log_append r res) w'
                              (calls ++ [model])
      | (Escaped, w') =>
          Some (inl {| router_left := r; world_left := w';
                       invoked_so_far := calls ++ [model] |})
      end
  end.

Definition execute_with_fallback_any (r : ModelRouter) (task_type : TaskType)
    (w : World) : Unwound + Run World :=
  let fallback_chain := _initialize_fallbacks task_type in
  match walk_chain_any (last fallback_chain) fallback_chain r w [] with
  | Some outcome => outcome
  | None =>
      inr {| result :=
               match fallback_chain with
               | [] => inl IndexError
               | m0 :: _ =>
                   inr {| success := false; output := None; model_used := m0;
                          execution_time := 0; tokens_used := 0;
                          error := Some "No models available" |}
               end;
             router := r; world := w; invoked := [] |}
  end.

End ExecuteAny.

Arguments router_left {World} _.
Arguments world_left {World} _.
Arguments invoked_so_far {World} _.

(** [model.value] and [task.value]: the strings the enumerations are
    declared with. *)
Definition ModelType_value (m : ModelType) : string :=
  match m with
  | GPT4 => "gpt-4"
  | CLAUDE_3_OPUS => "claude-3-opus"
  | CLAUDE_3_SONNET => "claude-3-sonnet"
  | PERPLEXITY => "perplexity"
  | LOCAL_LLAMA => "local-llama"
  end.

Definition TaskType_value (t : TaskType) : string :=
  match t with
  | LEGAL_RESEARCH => "legal_research"
  | DOCUMENT_GENERATION => "document_generation"
  | LEGAL_ANALYSIS => "legal_analysis"
  | EVIDENCE_REVIEW => "evidence_review"
  | CITATION_CHECKING => "citation_checking"
  end.

(** The dictionary [get_performance_stats] returns for a non-empty log;
    the counts are integers, the two ratios are true divisions. *)
Record PerformanceStats := {
  total_tasks : Z;
  success_rate : Q;
  model_usage : gmap string Z;
  avg_execution_time : Q
}.

(** [model_usage[model] = model_usage.get(model, 0) + 1]. *)
Definition count_usage (usage : gmap string Z) (res : TaskResult)
  : gmap string Z :=
  let model := ModelType_value (model_used res) in
  <[model := default 0 (usage !! model) + 1]> usage.

(** [get_performance_stats]; [None] is the empty dictionary returned for
    an empty log. *)
Definition get_performance_stats (r : ModelRouter) : option PerformanceStats :=
  match performance_log r with
  | [] => None
  | log =>
      let total := Z.of_nat (length log) in
      let successful := Z.of_nat (length (List.filter success log)) in
      Some {| total_tasks := total;
              success_rate := inject_Z successful / inject_Z total;
              model_usage := foldl count_usage ∅ log;
              avg_execution_time :=
                foldl (λ acc res, acc + execution_time res)%Q 0%Q log
                / inject_Z total |}
  end.

End FileBoss.

(** ** Vocabulary of the properties *)

Module Notions.
Import Drafter.

(** The drafter after a successful call. *)
Definition recorded (d : Drafter) (content : string) (ids : list string)
  : Drafter :=
  {| registry := registry d;
     citations := citations d ++
       [{| text := content; evidence_ids := ids;
           location := Z.of_nat (String.length content) |}] |}.

(** A source with nothing to cite it by: no usable label, no pages. *)
Definition bare (ev : EvidenceSource) : Prop :=
  truthy_ostr (exhibit_number ev) = false
  ∧ (page_numbers ev = None ∨ page_numbers ev = Some []).

(** The (evidence id, citation) references a drafting history records,
    and the ids among them. *)
Definition refs (h : list Citation) : list (string * Citation) :=
  flat_map (λ c, (λ e, (e, c)) <$> evidence_ids c) h.

Definition cited_ids (h : list Citation) : list string :=
  flat_map evidence_ids h.

(** Some cited id resolves to a source labelled [l] and described by
    [dsc]. *)
Definition cited_exhibit (reg : Registry) (ids : list string)
    (l dsc : string) : Prop :=
  ∃ e v, e ∈ ids ∧ reg !! e = Some v
         ∧ exhibit_number v = Some l ∧ l ≠ "" ∧ description v = dsc.

(** Cited sources that share a label share their description. *)
Definition label_consistent (reg : Registry) (ids : list string) : Prop :=
  ∀ l d1 d2, cited_exhibit reg ids l d1 → cited_exhibit reg ids l d2 → d1 = d2.

Definition exhibits_header : string :=
  "\section*{Exhibits}" +:+ nl +:+ "\begin{enumerate}".
Definition exhibits_footer : string := "\end{enumerate}".
Definition render_item (item : string * string) : string :=
  "  \item Exhibit " +:+ item.1 +:+ ": " +:+ item.2.

(** What one step of the loop writes, if anything. *)
Definition labelled (reg : Registry) (eid : string)
  : option (string * EvidenceSource) :=
  match reg !! eid with
  | Some v =>
      match exhibit_number v with
      | Some (String a l) => Some (String a l, v)
      | _ => None
      end
  | None => None
  end.

(** The entries of the list, as (label, description) pairs. *)
Definition exhibit_items (m : gmap string EvidenceSource)
  : list (string * string) :=
  omap (λ k, (λ v, (k, description v)) <$> m !! k) (sorted_keys m).

(** [m] is the first item of [l] with the least, or the greatest, key:
    no item has a better key, and every item before it has a strictly
    worse one. *)
Definition first_min {A} (key : A → Q) (l : list A) (m : A) : Prop :=
  ∃ i : nat, l !! i = Some m
    ∧ (∀ (j : nat) m', l !! j = Some m' → (key m <= key m')%Q)
    ∧ (∀ (j : nat) m', (j < i)%nat → l !! j = Some m' → (key m < key m')%Q).

Definition first_max {A} (key : A → Q) (l : list A) (m : A) : Prop :=
  ∃ i : nat, l !! i = Some m
    ∧ (∀ (j : nat) m', l !! j = Some m' → (key m' <= key m)%Q)
    ∧ (∀ (j : nat) m', (j < i)%nat → l !! j = Some m' → (key m' < key m)%Q).

(** Every recorded citation names at least one id, and registered ids
    only. *)
Definition grounded (d : Drafter) : Prop :=
  Forall (λ c, evidence_ids c ≠ []
               ∧ Forall (λ eid, is_Some (registry d !! eid)) (evidence_ids c))
         (citations d).

(** The caller never changes a list object that a recorded citation
    holds. *)
Fixpoint keeps_recorded (s : DrafterObjects.Lists * DrafterObjects.DrafterObj)
    (xs : list DrafterObjects.Action) : Prop :=
  match xs with
  | [] => True
  | x :: rest =>
      (∀ a ids, x = DrafterObjects.SetList a ids →
                a ∉ DrafterObjects.ids_at <$> DrafterObjects.citations_of s.2)
      ∧ keeps_recorded (DrafterObjects.act s x) rest
  end.

(** The last cited id that carries label [l], if any, and its source. *)
Definition last_labelled (reg : Registry) (ids : list string) (l : string)
  : option EvidenceSource :=
  snd <$> last (List.filter (λ p, String.eqb p.1 l)
                            (omap (labelled reg) ids)).

(** Every profile is filed under its own court id. *)
Definition keyed (reg : gmap string Jurisdiction.CourtProfile) : Prop :=
  ∀ cid p, reg !! cid = Some p → Jurisdiction.court_id p = cid.

(** The number of log entries made for model [m], and the count the
    statistics report for it ([0] when the model has no entry). *)
Definition count_model (log : list FileBoss.TaskResult)
    (m : FileBoss.ModelType) : Z :=
  Z.of_nat (length (List.filter
                      (λ res, bool_decide (FileBoss.model_used res = m)) log)).

Definition usage_of (st : FileBoss.PerformanceStats)
    (m : FileBoss.ModelType) : Z :=
  default 0 (FileBoss.model_usage st !! FileBoss.ModelType_value m).

(** Every match of every claim pattern in a document, pattern by pattern
    and in scan order. *)
Definition claim_matches (document : string) : list Match :=
  flat_map (λ pattern, finditer pattern document) claim_patterns.

(** The texts of the matches that start 200 characters or more away from
    position [L]. *)
Definition far_texts (L : Z) (ms : list Match) : list string :=
  group <$> List.filter (λ m, negb (Z.abs (L - start m) <? 200)) ms.

(** The figures of the model profiles, as listed in the capability
    table: cost per 1k tokens, average latency in seconds, reliability
    and context size in tokens. *)
Definition listed_cost (m : FileBoss.ModelType) : Q :=
  match m with
  | FileBoss.GPT4 => 0.03
  | FileBoss.CLAUDE_3_OPUS => 0.015
  | FileBoss.CLAUDE_3_SONNET => 0.003
  | FileBoss.PERPLEXITY => 0.001
  | FileBoss.LOCAL_LLAMA => 0.0
  end.

Definition listed_latency (m : FileBoss.ModelType) : Q :=
  match m with
  | FileBoss.GPT4 => 2.5
  | FileBoss.CLAUDE_3_OPUS => 3.0
  | FileBoss.CLAUDE_3_SONNET => 1.5
  | FileBoss.PERPLEXITY => 2.0
  | FileBoss.LOCAL_LLAMA => 5.0
  end.

Definition listed_reliability (m : FileBoss.ModelType) : Q :=
  match m with
  | FileBoss.GPT4 => 0.95
  | FileBoss.CLAUDE_3_OPUS => 0.93
  | FileBoss.CLAUDE_3_SONNET => 0.90
  | FileBoss.PERPLEXITY => 0.88
  | FileBoss.LOCAL_LLAMA => 0.75
  end.

Definition listed_context (m : FileBoss.ModelType) : Z :=
  match m with
  | FileBoss.GPT4 => 128000
  | FileBoss.CLAUDE_3_OPUS => 200000
  | FileBoss.CLAUDE_3_SONNET => 200000
  | FileBoss.PERPLEXITY => 16000
  | FileBoss.LOCAL_LLAMA => 32000
  end.

(** A task function whose calls all come back, seen as one that returns
    or raises an [Exception]. *)
Definition caught {World} (task : FileBoss.ModelType → World
                                  → FileBoss.Outcome * World)
    (m : FileBoss.ModelType) (w : World) : (string + string) * World :=
  match task m w with
  | (FileBoss.Returned out, w') => (inr out, w')
  | (FileBoss.Raised msg, w') => (inl msg, w')
  | (FileBoss.Escaped, w') => (inl "", w')
  end.

(** Every call of the task function comes back to the loop. *)
Definition comes_back {World} (task : FileBoss.ModelType → World
                                      → FileBoss.Outcome * World) : Prop :=
  ∀ m w, (task m w).1 ≠ FileBoss.Escaped.

End Notions.

(** ** Sample data for the worked instances *)

Module Samples.
Import Drafter Notions.

(** A small registry used by the worked instances: two labelled sources,
    one source with nothing to cite by, and a second bare one. *)
Definition ev_email : EvidenceSource :=
  {| source_id := "email_20231015";
     description := "Email from Respondent dated October 15, 2023";
     file_path := Some "evidence/emails/2023-10-15.pdf";
     page_numbers := Some [1; 2]; exhibit_number := Some "A" |}.

Definition ev_text : EvidenceSource :=
  {| source_id := "text_20231020";
     description := "Text message thread from October 20, 2023";
     file_path := Some "evidence/texts/2023-10-20.pdf";
     page_numbers := Some [1]; exhibit_number := Some "B" |}.

Definition ev_note : EvidenceSource :=
  {| source_id := "note"; description := "Handwritten note";
     file_path := None; page_numbers := None; exhibit_number := None |}.

Definition ev_memo : EvidenceSource :=
  {| source_id := "memo"; description := "Office memo";
     file_path := None; page_numbers := Some []; exhibit_number := Some "" |}.

Definition demo_registry : Registry :=
  register (register (register (register ∅ ev_email) ev_text) ev_note) ev_memo.

(** A worked document: a paragraph of four characters was drafted, so the
    only citation sits at 4; the document has one amount starting at
    offset 54 and another at 504, with blanks around them. *)
Fixpoint spaces (n : nat) : string :=
  match n with
  | O => ""
  | S n' => String " " (spaces n')
  end.

Definition demo_document : string :=
  spaces 54 +:+ "$100" +:+ spaces 446 +:+ "$200".

Definition demo_drafter : Drafter :=
  (draft_paragraph (new_drafter demo_registry) "Test" ["note"] true).2.

Definition amount_pattern : regex := Seq (Lit "$") (ClsPlus cls_d_comma).

Definition near_match : Match := {| start := 54; group := "$100" |}.
Definition far_match : Match := {| start := 504; group := "$200" |}.

(** Two paragraphs citing the demo sources, drafted in either order. *)
Definition history_ab : list Citation :=
  [ {| text := "First."; evidence_ids := ["email_20231015"]; location := 6 |};
    {| text := "Second.";
       evidence_ids := ["text_20231020"; "email_20231015"; "ghost"];
       location := 7 |} ].

Definition history_ba : list Citation := reverse history_ab.

(** A file system holding one document. *)
Definition demo_fs : gmap string string :=
  <["motion.tex" := "\setmainfont{Times New Roman}"]> ∅.

(** A task function that fails on GPT-4 and answers on every other model;
    the world is a clock that each call advances. *)
Definition flaky_task (m : FileBoss.ModelType) (w : nat)
  : (string + string) * nat :=
  match m with
  | FileBoss.GPT4 => (inl "rate limited", S w)
  | _ => (inr "analysis", (w + 2)%nat)
  end.

Definition nat_clock (w : nat) : Q := inject_Z (Z.of_nat w).

(** A caller that registers a source late, makes its lists, drafts, and
    changes only a list that no citation holds; and one that appends an
    unknown id to a list after citing it. *)
Definition careful_caller : list DrafterObjects.Action :=
  [ DrafterObjects.SetList 0 ["email_20231015"];
    DrafterObjects.Draft "Respondent wrote on the 15th." 0;
    DrafterObjects.SetList 1 ["late"];
    DrafterObjects.Draft "Respondent wrote late." 1;
    DrafterObjects.Register
      {| source_id := "late"; description := "Late letter";
         file_path := None; page_numbers := None;
         exhibit_number := Some "C" |};
    DrafterObjects.Draft "Respondent wrote late." 1;
    DrafterObjects.SetList 2 [] ].

Definition careless_caller : list DrafterObjects.Action :=
  [ DrafterObjects.SetList 0 ["email_20231015"];
    DrafterObjects.Draft "Respondent wrote on the 15th." 0;
    DrafterObjects.SetList 0 ["email_20231015"; "ghost"];
    DrafterObjects.Draft "Respondent wrote again." 0 ].

Definition fresh_objects : DrafterObjects.Lists * DrafterObjects.DrafterObj :=
  (∅, {| DrafterObjects.registry_of := demo_registry;
         DrafterObjects.citations_of := [] |}).

(** The document of the repository's compliance test, on disk. *)
Definition test_document : string :=
  "\setmainfont{Times New Roman}" +:+ nl +:+ "\doublespacing" +:+ nl
  +:+ "Certificate of Service" +:+ nl +:+ "Verification" +:+ nl.

Definition test_fs : gmap string string := <["test.tex" := test_document]> ∅.

(** The same file with a notice appended. *)
Definition test_fs_noticed : gmap string string :=
  <["test.tex" := "" +:+ test_document +:+ "Notice to pro se parties"]> test_fs.

(** A task function that raises on every model. *)
Definition down_task (m : FileBoss.ModelType) (w : nat)
  : (string + string) * nat :=
  (inl "service unavailable", S w).


Definition interrupted_task (m : FileBoss.ModelType) (w : nat)
  : FileBoss.Outcome * nat :=
  match m with
  | FileBoss.GPT4 => (FileBoss.Escaped, S w)
  | _ => (FileBoss.Returned "analysis", (w + 2)%nat)
  end.

End Samples.

(** ** Properties of the drafter *)

Module DrafterSpec.
Import Drafter Notions Samples.

Lemma missing_spec (reg : Registry) (ids : list string) (eid : string) :
  eid ∈ List.filter (unregistered reg) ids ↔ eid ∈ ids ∧ reg !! eid = None.
Proof.
  rewrite !list_elem_of_In, filter_In. unfold unregistered.
  destruct (reg !! eid); intuition congruence.
Qed.

Lemma validate_citations_invalid (reg : Registry) (ids : list string) eid :
  eid ∈ ids → reg !! eid = None →
  validate_citations reg ids = (false, List.filter (unregistered reg) ids).
Proof.
  intros Hin Hnone. unfold validate_citations.
  assert (Hm : eid ∈ List.filter (unregistered reg) ids)
    by (apply missing_spec; auto).
  destruct (List.filter (unregistered reg) ids) as [|x l]; [|done].
  by apply elem_of_nil in Hm.
Qed.

Lemma validate_citations_valid (reg : Registry) (ids : list string) :
  Forall (λ eid, is_Some (reg !! eid)) ids →
  validate_citations reg ids = (true, []).
Proof.
  intros Hall. unfold validate_citations.
  assert (Hnil : List.filter (unregistered reg) ids = []).
  { induction Hall as [|eid ids [ev Hev] _ IH]; [done|].
    simpl. unfold unregistered at 1. by rewrite Hev. }
  by rewrite Hnil.
Qed.

(** A call that passes the checks, or skips them, formats, records and
    returns. *)
Lemma draft_paragraph_unchecked d content ids :
  draft_paragraph d content ids false =
    (inr (content +:+ " " +:+ _format_citations (registry d) ids),
     recorded d content ids).
Proof. reflexivity. Qed.

Lemma draft_paragraph_checked d content ids :
  ids ≠ [] →
  Forall (λ eid, is_Some (registry d !! eid)) ids →
  draft_paragraph d content ids true =
    (inr (content +:+ " " +:+ _format_citations (registry d) ids),
     recorded d content ids).
Proof.
  intros Hne Hall. unfold draft_paragraph.
  destruct ids as [|eid ids]; [done|].
  by rewrite validate_citations_valid.
Qed.

(** C1.  When citation is required and some id of the list is not in the
    registry, [draft_paragraph] raises the "Invalid evidence IDs" error:
    the error carries exactly the ids of the list that are not registered
    (in list order), no paragraph text is returned, and the drafter, its
    citation log included, is left as it was. *)
Theorem draft_paragraph_unknown_evidence d content ids eid :
  eid ∈ ids → registry d !! eid = None →
  draft_paragraph d content ids true =
    (inl (UnknownEvidence (List.filter (unregistered (registry d)) ids)
                          (str_take 50 content)), d)
  ∧ citations (draft_paragraph d content ids true).2 = citations d
  ∧ ∀ x, x ∈ List.filter (unregistered (registry d)) ids
         ↔ x ∈ ids ∧ registry d !! x = None.
Proof.
  intros Hin Hnone.
  assert (Heq : draft_paragraph d content ids true =
    (inl (UnknownEvidence (List.filter (unregistered (registry d)) ids)
                          (str_take 50 content)), d)).
  { unfold draft_paragraph.
    destruct ids as [|i0 ids]; [by apply elem_of_nil in Hin|].
    by rewrite (validate_citations_invalid _ _ eid Hin Hnone). }
  split; [exact Heq|]. split; [by rewrite Heq|].
  intros x. apply missing_spec.
Qed.

Lemma draft_paragraph_unknown_evidence_witness :
  "ghost" ∈ ["email_20231015"; "ghost"; "phantom"]
  ∧ demo_registry !! "ghost" = None
  ∧ draft_paragraph (new_drafter demo_registry) "Respondent sent an email."
      ["email_20231015"; "ghost"; "phantom"] true =
    (inl (UnknownEvidence ["ghost"; "phantom"] "Respondent sent an email."),
     new_drafter demo_registry).
Proof.
  assert (Hin : "ghost" ∈ ["email_20231015"; "ghost"; "phantom"])
    by (apply list_elem_of_further, list_elem_of_here).
  assert (Hnone : registry (new_drafter demo_registry) !! "ghost" = None)
    by reflexivity.
  split; [exact Hin|]. split; [exact Hnone|].
  exact (proj1 (draft_paragraph_unknown_evidence
                  (new_drafter demo_registry) "Respondent sent an email."
                  ["email_20231015"; "ghost"; "phantom"] "ghost" Hin Hnone)).
Defined.

(** C2 does not hold of the code: with citation not required and no
    evidence ids the returned text is not the content itself. *)
Lemma draft_paragraph_no_ids_not_verbatim :
  ¬ (∀ d content, (draft_paragraph d content [] false).1 = inr content).
Proof.
  intros H. specialize (H (new_drafter ∅) "Test"). discriminate H.
Qed.

Lemma append_space_neq (content : string) : content +:+ " " ≠ content.
Proof.
  induction content as [|a content IH]; [discriminate|].
  intros [= H]. by apply IH.
Qed.

Lemma append_space_length (content : string) :
  String.length (content +:+ " ") = S (String.length content).
Proof.
  induction content as [|a content IH]; [done|].
  change (S (String.length (content +:+ " ")) = S (S (String.length content))).
  by rewrite IH.
Qed.

(** C2.  The claim asks for the content unchanged.  The code does
    otherwise on every input: with citation not required and an empty
    evidence id list the suffix is empty, as [_format_citations] takes
    care of, but the return statement still puts its separating space
    after the content.  The returned text is the content followed by
    exactly one space, one character longer than the content and never
    equal to it.  A citation with no ids is recorded. *)
Theorem draft_paragraph_no_ids d content :
  draft_paragraph d content [] false =
    (inr (content +:+ " "), recorded d content [])
  ∧ _format_citations (registry d) [] = ""
  ∧ String.length (content +:+ " ") = S (String.length content)
  ∧ (draft_paragraph d content [] false).1 ≠ inr content.
Proof.
  split; [reflexivity|]. split; [reflexivity|].
  split; [apply append_space_length|].
  rewrite draft_paragraph_unchecked. simpl. intros [= H].
  by apply (append_space_neq content).
Qed.

(** *** The citation suffix *)

Lemma collect_fragments_omap (reg : Registry) (ids : list string) :
  collect_fragments reg ids = fragment <$> omap (λ eid, reg !! eid) ids.
Proof.
  induction ids as [|eid ids IH]; [done|].
  simpl. unfold get. destruct (reg !! eid); simpl; by rewrite IH.
Qed.


Lemma format_citations_nonempty (reg : Registry) ids :
  ids ≠ [] →
  _format_citations reg ids =
    "(" +:+ join "; " (collect_fragments reg ids) +:+ ")".
Proof. by destruct ids. Qed.

(** C9.  With citation not required, [draft_paragraph] raises for no
    content and no id list: it returns the content, a space and the
    suffix, and appends a citation holding the id list exactly as given.
    The suffix is built from the ids that resolve only; an id that is
    not registered contributes nothing to it. *)
Theorem draft_paragraph_optional_citation d content ids :
  draft_paragraph d content ids false =
    (inr (content +:+ " " +:+ _format_citations (registry d) ids),
     {| registry := registry d;
        citations := citations d ++
          [{| text := content; evidence_ids := ids;
              location := Z.of_nat (String.length content) |}] |})
  ∧ _format_citations (registry d) ids =
      match ids with
      | [] => ""
      | _ => "(" +:+ join "; " (fragment <$>
                       omap (λ eid, registry d !! eid) ids) +:+ ")"
      end.
Proof.
  split; [reflexivity|].
  destruct ids as [|eid ids]; [done|].
  rewrite format_citations_nonempty by done.
  by rewrite collect_fragments_omap.
Qed.

(** An id that does not resolve leaves no trace in the suffix, but stays
    in the record. *)
Example draft_paragraph_unresolved_id :
  draft_paragraph (new_drafter demo_registry) "Noted."
    ["ghost"; "text_20231020"] false =
  (inr "Noted. (Ex. B, p. 1)",
   {| registry := demo_registry;
      citations := [{| text := "Noted.";
                       evidence_ids := ["ghost"; "text_20231020"];
                       location := 6 |}] |}).
Proof. reflexivity. Qed.

Lemma fragment_bare ev : bare ev → fragment ev = "".
Proof.
  intros [Hl Hp]. unfold fragment, cite_parts. rewrite Hl.
  by destruct Hp as [-> | ->].
Qed.

Lemma collect_fragments_bare (reg : Registry) ids :
  Forall (λ eid, ∃ ev, reg !! eid = Some ev ∧ bare ev) ids →
  collect_fragments reg ids = replicate (length ids) "".
Proof.
  induction 1 as [|eid ids (ev & Hev & Hb) Hall IH]; [done|].
  simpl. unfold get. by rewrite Hev, (fragment_bare _ Hb), IH.
Qed.

(** C10, as stated, fails: a paragraph that cites two sources without
    label and pages does not end in "()". *)
Lemma draft_paragraph_bare_sources_not_parens :
  ¬ (∀ (reg : Registry) content ids,
       ids ≠ [] →
       Forall (λ eid, ∃ ev, reg !! eid = Some ev ∧ bare ev) ids →
       (draft_paragraph (new_drafter reg) content ids true).1
         = inr (content +:+ " ()")).
Proof.
  intros H.
  specialize (H demo_registry "Test" ["note"; "memo"]).
  assert (Hall : Forall (λ eid, ∃ ev, demo_registry !! eid = Some ev ∧ bare ev)
                        ["note"; "memo"]).
  { repeat constructor.
    - exists ev_note. repeat split; auto.
    - exists ev_memo. repeat split; auto. }
  specialize (H ltac:(done) Hall). vm_compute in H. discriminate H.
Qed.

(** C10, amended.  A registered source with neither an exhibit label nor
    page numbers has the empty string as its fragment.  A paragraph that
    cites only such sources gets the fragments of its [n] ids joined by
    "; " inside parentheses, [n - 1] separators and nothing else; when it
    cites exactly one such source the suffix is "()" and the returned
    text is the content followed by " ()". *)
Theorem draft_paragraph_bare_sources d content ids require_citation :
  ids ≠ [] →
  Forall (λ eid, ∃ ev, registry d !! eid = Some ev ∧ bare ev) ids →
  Forall (λ eid, ∃ ev, registry d !! eid = Some ev ∧ fragment ev = "") ids
  ∧ (draft_paragraph d content ids require_citation).1 =
      inr (content +:+ " " +:+
           "(" +:+ join "; " (replicate (length ids) "") +:+ ")")
  ∧ (length ids = 1%nat →
     (draft_paragraph d content ids require_citation).1 =
       inr (content +:+ " ()")).
Proof.
  intros Hne Hall.
  assert (Hfrag : Forall (λ eid, ∃ ev, registry d !! eid = Some ev
                                       ∧ fragment ev = "") ids).
  { eapply Forall_impl; [exact Hall|].
    intros eid (ev & Hev & Hb). exists ev. split; [done|].
    by apply fragment_bare. }
  assert (Hreg : Forall (λ eid, is_Some (registry d !! eid)) ids).
  { eapply Forall_impl; [exact Hall|]. intros eid (ev & Hev & _). eauto. }
  assert (Hres : (draft_paragraph d content ids require_citation).1 =
      inr (content +:+ " " +:+
           "(" +:+ join "; " (replicate (length ids) "") +:+ ")")).
  { destruct require_citation.
    - rewrite draft_paragraph_checked by done. simpl.
      rewrite format_citations_nonempty by done.
      by rewrite collect_fragments_bare.
    - rewrite draft_paragraph_unchecked. simpl.
      rewrite format_citations_nonempty by done.
      by rewrite collect_fragments_bare. }
  split; [exact Hfrag|]. split; [exact Hres|].
  intros Hlen. rewrite Hres, Hlen. reflexivity.
Qed.

Lemma draft_paragraph_bare_sources_witness :
  ["note"] ≠ []
  ∧ Forall (λ eid, ∃ ev, demo_registry !! eid = Some ev ∧ bare ev) ["note"]
  ∧ (draft_paragraph (new_drafter demo_registry) "Test" ["note"] true).1
      = inr "Test ()".
Proof.
  assert (Hne : ["note"] ≠ @nil string) by discriminate.
  assert (Hall : Forall (λ eid, ∃ ev, registry (new_drafter demo_registry)
                                        !! eid = Some ev ∧ bare ev) ["note"]).
  { repeat constructor. exists ev_note. repeat split; auto. }
  split; [exact Hne|]. split; [exact Hall|].
  exact (proj2 (proj2 (draft_paragraph_bare_sources
                         (new_drafter demo_registry) "Test" ["note"] true
                         Hne Hall)) eq_refl).
Defined.

(** Two bare sources leave a lone separator between the parentheses. *)
Example draft_paragraph_two_bare_sources :
  (draft_paragraph (new_drafter demo_registry) "Test" ["note"; "memo"] true).1
    = inr "Test (; )".
Proof. reflexivity. Qed.



(** *** The uncited-claim scan *)

Lemma uncited_matches_spec d document m :
  m ∈ uncited_matches d document ↔
    has_nearby_citation (citations d) (start m) = false
    ∧ ∃ pattern, pattern ∈ claim_patterns ∧ m ∈ finditer pattern document.
Proof.
  unfold uncited_matches. rewrite list_elem_of_In, in_flat_map. split.
  - intros (pattern & Hp & Hm). apply filter_In in Hm as [Hm Hf].
    split; [by apply negb_true_iff|].
    exists pattern. by rewrite !list_elem_of_In.
  - intros (Hf & pattern & Hp & Hm). exists pattern.
    rewrite list_elem_of_In in Hp. rewrite list_elem_of_In in Hm.
    split; [done|].
    apply filter_In. split; [done|]. by apply negb_true_iff.
Qed.

Lemma validate_document_claims d document :
  (validate_document d document).2 = group <$> uncited_matches d document.
Proof. reflexivity. Qed.

Lemma has_nearby_single c pos :
  has_nearby_citation [c] pos = (Z.abs (location c - pos) <? 200).
Proof. unfold has_nearby_citation. simpl. apply orb_false_r. Qed.

Lemma filter_flat_map {A B} (f : B → bool) (F : A → list B) (l : list A) :
  flat_map (λ x, List.filter f (F x)) l = List.filter f (flat_map F l).
Proof.
  induction l as [|x l IH]; [done|].
  simpl. by rewrite List.filter_app, IH.
Qed.

(** With a single citation, at [L], the claims returned are the texts of
    the matches 200 or more away from [L]. *)
Lemma validate_document_single d document c :
  citations d = [c] →
  (validate_document d document).2
    = far_texts (location c) (claim_matches document).
Proof.
  intros Hc. rewrite validate_document_claims.
  unfold uncited_matches, far_texts, claim_matches. rewrite Hc.
  rewrite filter_flat_map. f_equal. apply filter_ext.
  intros m. by rewrite has_nearby_single.
Qed.

Lemma far_texts_app L ms1 ms2 :
  far_texts L (ms1 ++ ms2) = (far_texts L ms1 ++ far_texts L ms2)%list.
Proof. unfold far_texts. by rewrite List.filter_app, fmap_app. Qed.

Lemma far_texts_cons L m ms :
  far_texts L (m :: ms)
  = if Z.abs (L - start m) <? 200 then far_texts L ms
    else group m :: far_texts L ms.
Proof.
  unfold far_texts. cbn [List.filter].
  by destruct (Z.abs (L - start m) <? 200).
Qed.

(** Every match a claim pattern finds has its place among the matches of
    the document. *)
Lemma claim_matches_split document pattern m :
  pattern ∈ claim_patterns → m ∈ finditer pattern document →
  ∃ pre post, claim_matches document = (pre ++ m :: post)%list.
Proof.
  intros Hp Hm. apply list_elem_of_split.
  apply list_elem_of_In, in_flat_map. exists pattern.
  split; by apply list_elem_of_In.
Qed.

(** C5.  When the drafter's only citation has location [L], the list
    [validate_document] returns holds the texts of the claim-pattern
    matches that start 200 or more away from [L], in scan order, and
    nothing else.  A match that starts at [L + 50] contributes nothing
    to it: the list is what the matches before it and after it
    contribute.  A match that starts at [L + 500] contributes its text,
    at its place between them.  The flag is set exactly when the list
    is empty. *)
Theorem validate_document_proximity d document c L pre m post :
  citations d = [c] → location c = L →
  claim_matches document = (pre ++ m :: post)%list →
  (validate_document d document).2 = far_texts L (claim_matches document)
  ∧ (start m = L + 50 →
     (validate_document d document).2
       = (far_texts L pre ++ far_texts L post)%list
     ∧ m ∉ uncited_matches d document)
  ∧ (start m = L + 500 →
     (validate_document d document).2
       = (far_texts L pre ++ group m :: far_texts L post)%list
     ∧ m ∈ uncited_matches d document)
  ∧ ((validate_document d document).1
     = Nat.eqb (length (far_texts L (claim_matches document))) 0).
Proof.
  intros Hc HL Hsplit.
  assert (Hret : (validate_document d document).2
                 = far_texts L (claim_matches document)).
  { rewrite <- HL. by apply validate_document_single. }
  assert (Hm : ∃ pattern, pattern ∈ claim_patterns
                          ∧ m ∈ finditer pattern document).
  { assert (Hin : m ∈ claim_matches document).
    { rewrite Hsplit. apply elem_of_app. right. apply list_elem_of_here. }
    apply list_elem_of_In, in_flat_map in Hin as (pattern & Hp & Hin).
    exists pattern. split; by apply list_elem_of_In. }
  split; [exact Hret|]. split; [|split].
  - intros Hs. split.
    + rewrite Hret, Hsplit, far_texts_app, far_texts_cons, Hs.
      replace (Z.abs (L - (L + 50)) <? 200) with true; [done|].
      symmetry. apply Z.ltb_lt. lia.
    + intros Hin. apply uncited_matches_spec in Hin as [Hf _].
      rewrite Hc, has_nearby_single, HL, Hs in Hf.
      apply Z.ltb_ge in Hf. lia.
  - intros Hs. split.
    + rewrite Hret, Hsplit, far_texts_app, far_texts_cons, Hs.
      replace (Z.abs (L - (L + 500)) <? 200) with false; [done|].
      symmetry. apply Z.ltb_ge. lia.
    + apply uncited_matches_spec. split; [|exact Hm].
      rewrite Hc, has_nearby_single, HL, Hs. apply Z.ltb_ge. lia.
  - unfold validate_document at 1. cbn [fst].
    by rewrite <- validate_document_claims, Hret.
Qed.

Lemma validate_document_proximity_witness :
  citations demo_drafter
    = [{| text := "Test"; evidence_ids := ["note"]; location := 4 |}]
  ∧ claim_matches demo_document = ([] ++ near_match :: [far_match])%list
  ∧ claim_matches demo_document = ([near_match] ++ far_match :: [])%list
  ∧ start near_match = 4 + 50
  ∧ start far_match = 4 + 500
  ∧ (validate_document demo_drafter demo_document).2 = ["$200"]
  ∧ (validate_document demo_drafter demo_document).2
    = (far_texts 4 [near_match] ++ group far_match :: far_texts 4 [])%list.
Proof.
  assert (Hc : citations demo_drafter
    = [{| text := "Test"; evidence_ids := ["note"]; location := 4 |}])
    by reflexivity.
  assert (H1 : claim_matches demo_document
               = ([] ++ near_match :: [far_match])%list)
    by (vm_compute; reflexivity).
  assert (H2 : claim_matches demo_document
               = ([near_match] ++ far_match :: [])%list)
    by (vm_compute; reflexivity).
  split; [exact Hc|]. split; [exact H1|]. split; [exact H2|].
  split; [reflexivity|]. split; [reflexivity|]. split.
  - exact (proj1 (proj1 (proj2 (validate_document_proximity demo_drafter
             demo_document _ 4 [] near_match [far_match] Hc eq_refl H1))
             eq_refl)).
  - exact (proj1 (proj1 (proj2 (proj2 (validate_document_proximity
             demo_drafter demo_document _ 4 [near_match] far_match []
             Hc eq_refl H2))) eq_refl)).
Defined.

Example validate_document_demo :
  validate_document demo_drafter demo_document = (false, ["$200"]).
Proof. vm_compute. reflexivity. Qed.

(** The four patterns on one sentence, in the order the scan reports
    them. *)
Example claim_patterns_demo :
  (validate_document (new_drafter ∅)
     "On May  5, 2020 Respondent John failed to pay $1,200, 3 times.").2
  = ["Respondent John failed to"; "On May  5, 2020"; "$1,200,"; "3 times"].
Proof. vm_compute. reflexivity. Qed.

(** *** The exhibit list *)

Lemma refs_fst h : (refs h).*1 = cited_ids h.
Proof.
  induction h as [|c h IH]; [done|].
  unfold refs, cited_ids in *. simpl. rewrite fmap_app, IH. f_equal.
  rewrite <- list_fmap_compose. apply list_fmap_id.
Qed.

Lemma collect_exhibits_fold reg h m0 :
  foldl (λ exhibits c, foldl (exhibit_step reg) exhibits (evidence_ids c)) m0 h
  = foldl (exhibit_step reg) m0 (cited_ids h).
Proof.
  revert m0. induction h as [|c h IH]; intros m0; [done|].
  unfold cited_ids in *. simpl. by rewrite foldl_app, IH.
Qed.

Lemma exhibit_step_labelled reg m eid :
  exhibit_step reg m eid =
    match labelled reg eid with
    | Some (l, v) => <[l := v]> m
    | None => m
    end.
Proof.
  unfold exhibit_step, labelled, get.
  destruct (reg !! eid) as [v|]; [|done].
  by destruct (exhibit_number v) as [[|a l]|].
Qed.

Lemma labelled_Some reg eid l v :
  labelled reg eid = Some (l, v) ↔
    reg !! eid = Some v ∧ exhibit_number v = Some l ∧ l ≠ "".
Proof.
  unfold labelled. destruct (reg !! eid) as [v'|]; [|by intuition].
  destruct (exhibit_number v') as [[|a l']|] eqn:Hx.
  - split; [done|]. intros (Hv & Hl & Hne). congruence.
  - split.
    + intros [= <- <-]. by rewrite Hx.
    + intros ([= <-] & Hl & _). rewrite Hx in Hl. congruence.
  - split; [done|]. intros (Hv & Hl & _). congruence.
Qed.

(** Every entry of the dictionary was put there by a cited id. *)
Lemma exhibits_sound reg ids m0 l v :
  foldl (exhibit_step reg) m0 ids !! l = Some v →
  m0 !! l = Some v ∨ ∃ e, e ∈ ids ∧ labelled reg e = Some (l, v).
Proof.
  revert m0. induction ids as [|e ids IH]; intros m0 Hl; [by left|].
  simpl in Hl. apply IH in Hl as [Hl | (e' & He' & Hlab)].
  - rewrite exhibit_step_labelled in Hl.
    destruct (labelled reg e) as [[l' v']|] eqn:Hlab; [|by left].
    destruct (decide (l' = l)) as [->|Hne].
    + rewrite lookup_insert_eq in Hl. simplify_eq. right. exists e.
      split; [apply list_elem_of_here|done].
    + rewrite lookup_insert_ne in Hl by done. by left.
  - right. exists e'. split; [by apply list_elem_of_further|done].
Qed.

(** Every labelled cited id has an entry under its label. *)
Lemma exhibits_complete reg ids m0 l :
  is_Some (m0 !! l) ∨ (∃ e v, e ∈ ids ∧ labelled reg e = Some (l, v)) →
  is_Some (foldl (exhibit_step reg) m0 ids !! l).
Proof.
  revert m0. induction ids as [|e ids IH]; intros m0 H.
  - destruct H as [H | (e & v & He & _)]; [done|by apply elem_of_nil in He].
  - simpl. apply IH. rewrite exhibit_step_labelled.
    destruct H as [H | (e' & v & He' & Hlab)].
    + left. destruct (labelled reg e) as [[l' v']|]; [|done].
      destruct (decide (l' = l)) as [->|Hne].
      * rewrite lookup_insert_eq. eauto.
      * by rewrite lookup_insert_ne.
    + apply elem_of_cons in He' as [->|He'].
      * left. rewrite Hlab, lookup_insert_eq. eauto.
      * right. eauto.
Qed.

Lemma collect_exhibits_sound reg h l v :
  collect_exhibits reg h !! l = Some v →
  cited_exhibit reg (cited_ids h) l (description v).
Proof.
  unfold collect_exhibits. rewrite collect_exhibits_fold. intros Hl.
  apply exhibits_sound in Hl as [Hl | (e & He & Hlab)].
  - by rewrite lookup_empty in Hl.
  - apply labelled_Some in Hlab as (? & ? & ?). exists e, v. eauto.
Qed.

Lemma collect_exhibits_complete reg h l dsc :
  cited_exhibit reg (cited_ids h) l dsc →
  is_Some (collect_exhibits reg h !! l).
Proof.
  intros (e & v & He & Hv & Hx & Hne & _).
  unfold collect_exhibits. rewrite collect_exhibits_fold.
  apply exhibits_complete. right. exists e, v. split; [done|].
  by apply labelled_Some.
Qed.

Lemma cited_exhibit_perm reg ids1 ids2 l dsc :
  ids1 ≡ₚ ids2 → cited_exhibit reg ids1 l dsc → cited_exhibit reg ids2 l dsc.
Proof.
  intros Hp (e & v & He & H). exists e, v. split; [by rewrite <- Hp|done].
Qed.

(** The labels and their descriptions do not depend on the order of the
    references, as long as a label stands for one description. *)
Lemma collect_exhibits_descriptions reg h1 h2 :
  cited_ids h1 ≡ₚ cited_ids h2 →
  label_consistent reg (cited_ids h1) →
  description <$> collect_exhibits reg h1
    = description <$> collect_exhibits reg h2.
Proof.
  intros Hp Hcons. apply map_eq. intros l. rewrite !lookup_fmap.
  destruct (collect_exhibits reg h1 !! l) as [v1|] eqn:H1;
    destruct (collect_exhibits reg h2 !! l) as [v2|] eqn:H2; simpl.
  - f_equal. apply (Hcons l).
    + by apply collect_exhibits_sound.
    + apply (cited_exhibit_perm _ (cited_ids h2)); [done|].
      by apply collect_exhibits_sound.
  - apply collect_exhibits_sound in H1.
    apply (cited_exhibit_perm _ _ (cited_ids h2)) in H1; [|done].
    apply collect_exhibits_complete in H1. rewrite H2 in H1.
    by destruct H1.
  - apply collect_exhibits_sound in H2.
    apply (cited_exhibit_perm _ _ (cited_ids h1)) in H2; [|done].
    apply collect_exhibits_complete in H2. rewrite H1 in H2.
    by destruct H2.
  - done.
Qed.

Lemma sorted_keys_fmap {A B} (f : A → B) (m : gmap string A) :
  sorted_keys (f <$> m) = sorted_keys m.
Proof.
  unfold sorted_keys. rewrite map_to_list_fmap. f_equal.
  rewrite <- list_fmap_compose. by apply list_fmap_ext.
Qed.

Lemma sorted_keys_elem {V} (m : gmap string V) k :
  k ∈ sorted_keys m ↔ is_Some (m !! k).
Proof.
  unfold sorted_keys. rewrite merge_sort_Permutation.
  rewrite list_elem_of_fmap. split.
  - intros ([k' v] & -> & Hin). apply elem_of_map_to_list in Hin. eauto.
  - intros [v Hv]. exists (k, v). split; [done|].
    by apply elem_of_map_to_list.
Qed.

Lemma sorted_keys_sorted {V} (m : gmap string V) :
  Sorted String.le (sorted_keys m).
Proof. apply Sorted_merge_sort, _. Qed.

Lemma sorted_keys_NoDup {V} (m : gmap string V) : NoDup (sorted_keys m).
Proof.
  unfold sorted_keys. rewrite merge_sort_Permutation.
  apply NoDup_fst_map_to_list.
Qed.

Lemma exhibit_items_render m keys :
  flat_map (exhibit_item m) keys
  = render_item <$> omap (λ k, (λ v, (k, description v)) <$> m !! k) keys.
Proof.
  induction keys as [|k keys IH]; [done|].
  simpl. unfold exhibit_item at 1.
  destruct (m !! k) as [v|]; simpl; by rewrite IH.
Qed.

Lemma exhibit_items_fst m : (exhibit_items m).*1 = sorted_keys m.
Proof.
  unfold exhibit_items.
  assert (H : ∀ k, k ∈ sorted_keys m → is_Some (m !! k))
    by (intros k; apply sorted_keys_elem).
  induction (sorted_keys m) as [|k keys IH]; [done|].
  simpl. destruct (H k) as [v Hv]; [apply list_elem_of_here|].
  rewrite Hv. simpl. f_equal. apply IH.
  intros k' Hk'. apply H. by apply list_elem_of_further.
Qed.

Lemma exhibit_items_elem m l dsc :
  (l, dsc) ∈ exhibit_items m ↔ ∃ v, m !! l = Some v ∧ description v = dsc.
Proof.
  unfold exhibit_items. rewrite list_elem_of_omap. split.
  - intros (k & _ & Hk). destruct (m !! k) as [v|] eqn:Hv; simplify_eq/=.
    eauto.
  - intros (v & Hv & <-). exists l. split.
    + apply sorted_keys_elem. eauto.
    + by rewrite Hv.
Qed.

Lemma generate_exhibit_list_items reg h :
  generate_exhibit_list {| registry := reg; citations := h |}
  = join nl ([exhibits_header]
               ++ (render_item <$> exhibit_items (collect_exhibits reg h))
               ++ [exhibits_footer])%list.
Proof.
  unfold generate_exhibit_list. simpl.
  by rewrite exhibit_items_render.
Qed.

Lemma exhibit_items_alt m :
  exhibit_items m
  = omap (λ k, (λ dsc, (k, dsc)) <$> (description <$> m) !! k)
         (sorted_keys (description <$> m)).
Proof.
  unfold exhibit_items. rewrite sorted_keys_fmap.
  induction (sorted_keys m) as [|k keys IH]; [done|].
  cbn [omap list_omap]. rewrite <- IH, lookup_fmap.
  by destruct (m !! k).
Qed.

(** C4, as stated, fails: two histories with the same references can give
    different lists when two cited sources share an exhibit label. *)
Lemma exhibit_list_order_dependent :
  ¬ (∀ (reg : Registry) h1 h2,
       refs h1 ≡ₚ refs h2 →
       generate_exhibit_list {| registry := reg; citations := h1 |}
       = generate_exhibit_list {| registry := reg; citations := h2 |}).
Proof.
  intros H.
  pose (e1 := {| source_id := "e1"; description := "Letter"; file_path := None;
                 page_numbers := None; exhibit_number := Some "A" |}).
  pose (e2 := {| source_id := "e2"; description := "Invoice"; file_path := None;
                 page_numbers := None; exhibit_number := Some "A" |}).
  pose (c1 := {| text := "One"; evidence_ids := ["e1"]; location := 3 |}).
  pose (c2 := {| text := "Two"; evidence_ids := ["e2"]; location := 3 |}).
  specialize (H (register (register ∅ e1) e2) [c1; c2] [c2; c1]).
  assert (Hp : refs [c1; c2] ≡ₚ refs [c2; c1]) by apply perm_swap.
  specialize (H Hp). vm_compute in H. discriminate H.
Qed.

(** C4, amended.  Two drafting histories that record the same references
    against the same registry give the same exhibit list, provided cited
    sources that share an exhibit label share their description.  The
    list is the header, one line "  \item Exhibit <label>: <description>"
    for each non-empty label of a cited, registered source, each label
    once, labels ascending, and the footer, joined by newlines. *)
Theorem exhibit_list_order_independent (reg : Registry) h1 h2 :
  refs h1 ≡ₚ refs h2 →
  label_consistent reg (cited_ids h1) →
  generate_exhibit_list {| registry := reg; citations := h1 |}
    = generate_exhibit_list {| registry := reg; citations := h2 |}
  ∧ ∃ items : list (string * string),
      generate_exhibit_list {| registry := reg; citations := h1 |}
        = join nl ([exhibits_header] ++ (render_item <$> items)
                     ++ [exhibits_footer])%list
      ∧ Sorted String.le items.*1
      ∧ NoDup items.*1
      ∧ ∀ l dsc, (l, dsc) ∈ items ↔ cited_exhibit reg (cited_ids h1) l dsc.
Proof.
  intros Hrefs Hcons.
  assert (Hp : cited_ids h1 ≡ₚ cited_ids h2).
  { rewrite <- !refs_fst. by apply fmap_Permutation. }
  split.
  - rewrite !generate_exhibit_list_items, !exhibit_items_alt.
    by rewrite (collect_exhibits_descriptions reg h1 h2 Hp Hcons).
  - exists (exhibit_items (collect_exhibits reg h1)).
    split; [apply generate_exhibit_list_items|].
    rewrite exhibit_items_fst.
    split; [apply sorted_keys_sorted|]. split; [apply sorted_keys_NoDup|].
    intros l dsc. rewrite exhibit_items_elem. split.
    + intros (v & Hv & <-). by apply collect_exhibits_sound.
    + intros Hc. destruct (collect_exhibits_complete _ _ _ _ Hc) as [v Hv].
      exists v. split; [done|]. apply (Hcons l); [|done].
      by apply collect_exhibits_sound.
Qed.

Lemma demo_label_consistent :
  label_consistent demo_registry (cited_ids history_ab).
Proof.
  intros l d1 d2 (e1 & v1 & He1 & Hv1 & Hx1 & _ & <-)
                 (e2 & v2 & He2 & Hv2 & Hx2 & _ & <-).
  assert (Hids : ∀ e, e ∈ cited_ids history_ab →
            e = "email_20231015" ∨ e = "text_20231020" ∨ e = "ghost").
  { intros e He. vm_compute in He.
    repeat (apply elem_of_cons in He as [->|He]; [tauto|]).
    by apply elem_of_nil in He. }
  destruct (Hids _ He1) as [->|[->| ->]];
    destruct (Hids _ He2) as [->|[->| ->]];
    vm_compute in Hv1; vm_compute in Hv2; try discriminate;
    injection Hv1 as <-; injection Hv2 as <-; try reflexivity;
    vm_compute in Hx1; vm_compute in Hx2; congruence.
Qed.

Lemma exhibit_list_order_independent_witness :
  refs history_ab ≡ₚ refs history_ba
  ∧ label_consistent demo_registry (cited_ids history_ab)
  ∧ generate_exhibit_list
      {| registry := demo_registry; citations := history_ab |}
    = generate_exhibit_list
        {| registry := demo_registry; citations := history_ba |}.
Proof.
  assert (Hp : refs history_ab ≡ₚ refs history_ba).
  { unfold history_ba, history_ab, refs. simpl.
    apply (Permutation_app_comm [_] [_; _; _]). }
  split; [exact Hp|]. split; [exact demo_label_consistent|].
  exact (proj1 (exhibit_list_order_independent demo_registry
                  history_ab history_ba Hp demo_label_consistent)).
Defined.

Example generate_exhibit_list_demo :
  generate_exhibit_list
    {| registry := demo_registry; citations := history_ba |}
  = "\section*{Exhibits}" +:+ nl +:+ "\begin{enumerate}" +:+ nl +:+
    "  \item Exhibit A: Email from Respondent dated October 15, 2023" +:+ nl +:+
    "  \item Exhibit B: Text message thread from October 20, 2023" +:+ nl +:+
    "\end{enumerate}".
Proof. vm_compute. reflexivity. Qed.

End DrafterSpec.

(** ** Properties of the compliance validator *)

Module JurisdictionSpec.
Import Jurisdiction Samples.

(** For a registered court the file system is consulted and the three
    checks make up the report. *)
Lemma validate_document_known_court float_str (reg : Profiles)
    (fs : gmap string string) document_path cid profile :
  reg !! cid = Some profile →
  let content := default "" (fs !! document_path) in
  let violations :=
    (_check_formatting float_str content (formatting profile)
     ++ _check_filing_rules content (filing profile)
     ++ _check_special_rules content (special_rules profile))%list in
  validate_document float_str reg fs document_path cid =
    ((Nat.eqb (length violations) 0, violations),
     Exists document_path ::
       match fs !! document_path with
       | Some _ => [ReadText document_path]
       | None => []
       end).
Proof.
  intros Hp. unfold validate_document, get_profile. rewrite Hp.
  by destruct (fs !! document_path).
Qed.

(** The file system is left alone exactly when the court is unknown. *)
Lemma validate_document_no_fs_call_iff float_str (reg : Profiles)
    (fs : gmap string string) document_path cid :
  (validate_document float_str reg fs document_path cid).2 = []
  ↔ reg !! cid = None.
Proof.
  unfold validate_document, get_profile.
  destruct (reg !! cid) as [profile|]; [|done].
  by destruct (fs !! document_path).
Qed.

(** C3.  For a court id that is not registered, [validate_document]
    reports failure with the single message "Unknown court ID: <id>" and
    stops there: it makes no file-system call, so no document text is
    read, and the report holds nothing from the formatting, filing or
    special-rule checks, whatever the file system holds. *)
Theorem validate_document_unknown_court float_str (reg : Profiles)
    (fs : gmap string string) document_path cid :
  reg !! cid = None →
  validate_document float_str reg fs document_path cid =
    ((false, ["Unknown court ID: " +:+ cid]), [])
  ∧ ∀ fs' : gmap string string,
      validate_document float_str reg fs' document_path cid =
      validate_document float_str reg fs document_path cid.
Proof.
  intros Hnone. unfold validate_document, get_profile. by rewrite Hnone.
Qed.

Lemma validate_document_unknown_court_witness :
  _load_default_profiles !! "hi_probate" = None
  ∧ validate_document one_decimal_str _load_default_profiles demo_fs
      "motion.tex" "hi_probate"
    = ((false, ["Unknown court ID: hi_probate"]), []).
Proof.
  assert (Hnone : _load_default_profiles !! "hi_probate" = None)
    by reflexivity.
  split; [exact Hnone|].
  exact (proj1 (validate_document_unknown_court one_decimal_str
                  _load_default_profiles demo_fs "motion.tex" "hi_probate"
                  Hnone)).
Defined.

(** The same document against a registered court: the file is read and
    the checks report. *)
Example validate_document_hi_family :
  validate_document one_decimal_str _load_default_profiles demo_fs
    "motion.tex" "hi_family"
  = ((false,
      ["Required line spacing 2.0 not set";
       "Certificate of Service required but not found";
       "Verification required but not found";
       "Pro se notice may be required for self-represented litigants"]),
     [Exists "motion.tex"; ReadText "motion.tex"]).
Proof. vm_compute. reflexivity. Qed.

End JurisdictionSpec.

(** ** Properties of the model router *)

Module FileBossSpec.
Import FileBoss Notions Samples.

Lemma Qltb_spec x y : reflect (x < y)%Q (Qltb x y).
Proof.
  unfold Qltb. destruct (x ?= y)%Q eqn:Hc; constructor.
  - apply Qeq_alt in Hc. lra.
  - by apply Qlt_alt.
  - apply Qgt_alt in Hc. lra.
Qed.

Section Extremum.
Context {A : Type} (key : A → Q).

Lemma first_min_singleton a : first_min key [a] a.
Proof.
  exists 0%nat. split; [done|]. split.
  - intros [|j] m' Hj; simplify_eq/=. lra.
  - intros j m' Hj. lia.
Qed.

Lemma first_min_snoc_keep pre best x :
  first_min key pre best → ¬ (key x < key best)%Q →
  first_min key (pre ++ [x]) best.
Proof.
  intros (i & Hi & Hle & Hlt) Hx. exists i. split; [|split].
  - by apply lookup_app_l_Some.
  - intros j m' Hj. apply lookup_app_Some in Hj as [Hj | [_ Hj]].
    + by apply (Hle j).
    + destruct (j - length pre)%nat; simplify_eq/=. lra.
  - intros j m' Hji Hj. apply (Hlt j); [done|].
    apply lookup_lt_Some in Hi.
    rewrite lookup_app_l in Hj by lia. done.
Qed.

Lemma first_min_snoc_take pre best x :
  first_min key pre best → (key x < key best)%Q →
  first_min key (pre ++ [x]) x.
Proof.
  intros (i & Hi & Hle & Hlt) Hx. exists (length pre). split; [|split].
  - by apply list_lookup_middle.
  - intros j m' Hj. apply lookup_app_Some in Hj as [Hj | [_ Hj]].
    + specialize (Hle j m' Hj). lra.
    + destruct (j - length pre)%nat; simplify_eq/=. lra.
  - intros j m' Hjl Hj. rewrite lookup_app_l in Hj by lia.
    specialize (Hle j m' Hj). lra.
Qed.

Lemma min_by_first_min pre best rest :
  first_min key pre best →
  first_min key (pre ++ rest) (min_by key best rest).
Proof.
  revert pre best. induction rest as [|x rest IH]; intros pre best Hb.
  - by rewrite app_nil_r.
  - simpl. rewrite (cons_middle x pre rest), app_assoc.
    destruct (Qltb_spec (key x) (key best)); apply IH.
    + by apply (first_min_snoc_take pre best).
    + by apply first_min_snoc_keep.
Qed.

Lemma min_by_spec c rest : first_min key (c :: rest) (min_by key c rest).
Proof. apply (min_by_first_min [c]), first_min_singleton. Qed.
End Extremum.

Lemma max_by_min_by {A} (key : A → Q) best items :
  max_by key best items = min_by (λ a, - key a)%Q best items.
Proof.
  revert best. induction items as [|x rest IH]; intros best; [done|].
  simpl. rewrite !IH.
  destruct (Qltb_spec (key best) (key x)),
           (Qltb_spec (- key x) (- key best)); try done; lra.
Qed.

Lemma max_by_spec {A} (key : A → Q) c rest :
  first_max key (c :: rest) (max_by key c rest).
Proof.
  rewrite max_by_min_by.
  destruct (min_by_spec (λ a, - key a)%Q c rest) as (i & Hi & Hle & Hlt).
  exists i. split; [done|]. split.
  - intros j m' Hj. specialize (Hle j m' Hj). simpl in Hle. lra.
  - intros j m' Hji Hj. specialize (Hlt j m' Hji Hj). simpl in Hlt. lra.
Qed.

Lemma filter_sublist {A} (f : A → bool) (l : list A) :
  List.filter f l `sublist_of` l.
Proof.
  induction l as [|a l IH]; [done|].
  simpl. destruct (f a); by constructor.
Qed.

(** The candidates keep the order of the task's chain. *)
Lemma candidates_for_sublist task_type context_size :
  candidates_for task_type context_size `sublist_of`
    _initialize_fallbacks (default LEGAL_ANALYSIS (TaskType_of_value task_type)).
Proof.
  unfold candidates_for. destruct context_size as [n|]; [|done].
  destruct (n =? 0); [done|]. apply filter_sublist.
Qed.

Lemma first_min_ext {A} (key key' : A → Q) l m :
  (∀ x, key x = key' x) → first_min key l m → first_min key' l m.
Proof.
  intros Hk (i & Hi & Hle & Hlt). exists i. split; [done|]. split.
  - intros j m' Hj. rewrite <- !Hk. by apply (Hle j).
  - intros j m' Hji Hj. rewrite <- !Hk. by apply (Hlt j).
Qed.

Lemma first_max_ext {A} (key key' : A → Q) l m :
  (∀ x, key x = key' x) → first_max key l m → first_max key' l m.
Proof.
  intros Hk (i & Hi & Hle & Hlt). exists i. split; [done|]. split.
  - intros j m' Hj. rewrite <- !Hk. by apply (Hle j).
  - intros j m' Hji Hj. rewrite <- !Hk. by apply (Hlt j).
Qed.

(** The keys [select_model] sorts by are the figures of the table. *)
Lemma cost_of_listed m : cost_of m = listed_cost m.
Proof. by destruct m. Qed.

Lemma latency_of_listed m : latency_of m = listed_latency m.
Proof. by destruct m. Qed.

Lemma reliability_of_listed m : reliability_of m = listed_reliability m.
Proof. by destruct m. Qed.

Lemma max_context_listed m :
  max_context (_initialize_profiles m) = listed_context m.
Proof. by destruct m. Qed.

(** The candidates are the members of the chain whose listed context is
    large enough, when a non-zero size is asked for. *)
Lemma candidates_for_elem task_type context_size m :
  m ∈ candidates_for task_type context_size
  ↔ m ∈ _initialize_fallbacks
          (default LEGAL_ANALYSIS (TaskType_of_value task_type))
    ∧ ∀ n, context_size = Some n → n ≠ 0 → n ≤ listed_context m.
Proof.
  unfold candidates_for. destruct context_size as [n|].
  - destruct (Z.eqb_spec n 0) as [->|Hn].
    + split; [|by intros [? _]]. intros Hin. split; [done|].
      by intros n [= <-] Hn.
    + rewrite list_elem_of_In, filter_In, <- list_elem_of_In.
      rewrite max_context_listed, Z.leb_le. split.
      * intros [Hin Hle]. split; [done|]. by intros n' [= <-] _.
      * intros [Hin Hle]. split; [done|]. by apply Hle.
  - split; [|by intros [? _]]. intros Hin. by split.
Qed.

(** C7.  Whenever some candidate is left, [select_model] returns, for
    priority "cost", the first candidate of least listed cost per 1k
    tokens; for priority "speed", the first candidate of least listed
    average latency; for any other priority, the first candidate of
    greatest listed reliability.  The candidates are the members of the
    task's chain with a large enough listed context, in chain order, so
    "first" is earliest in the task's fallback chain.  In particular
    [select_model("legal_research", priority="cost")] is PERPLEXITY, the
    cheapest member of that chain; for document generation the fastest
    member is the chain's last, CLAUDE_3_SONNET, and for citation
    checking the most reliable is the chain's last, GPT4. *)
Theorem select_model_priority task_type context_size priority :
  candidates_for task_type context_size ≠ [] →
  let candidates := candidates_for task_type context_size in
  let m := select_model task_type context_size priority in
  candidates `sublist_of`
    _initialize_fallbacks (default LEGAL_ANALYSIS (TaskType_of_value task_type))
  ∧ (∀ m', m' ∈ candidates
          ↔ m' ∈ _initialize_fallbacks
                   (default LEGAL_ANALYSIS (TaskType_of_value task_type))
            ∧ ∀ n, context_size = Some n → n ≠ 0 → n ≤ listed_context m')
  ∧ (priority = "cost" →
     first_min cost_of candidates m ∧ first_min listed_cost candidates m)
  ∧ (priority = "speed" →
     first_min latency_of candidates m
     ∧ first_min listed_latency candidates m)
  ∧ (priority ≠ "cost" → priority ≠ "speed" →
     first_max reliability_of candidates m
     ∧ first_max listed_reliability candidates m)
  ∧ select_model "legal_research" None "cost" = PERPLEXITY
  ∧ first_min cost_of (_initialize_fallbacks LEGAL_RESEARCH) PERPLEXITY
  ∧ first_min listed_cost (_initialize_fallbacks LEGAL_RESEARCH) PERPLEXITY
  ∧ select_model "document_generation" None "speed" = CLAUDE_3_SONNET
  ∧ select_model "citation_checking" None "quality" = GPT4.
Proof.
  intros Hne candidates m. subst candidates m.
  split; [apply candidates_for_sublist|].
  split; [intros m'; apply candidates_for_elem|].
  unfold select_model.
  destruct (candidates_for task_type context_size) as [|c rest]; [done|].
  split; [|split; [|split; [|split; [|split; [|split; [|split]]]]]].
  - intros ->. simpl.
    split; [|apply (first_min_ext cost_of); [apply cost_of_listed|]];
      apply min_by_spec.
  - intros ->. simpl.
    split; [|apply (first_min_ext latency_of); [apply latency_of_listed|]];
      apply min_by_spec.
  - intros Hc Hs.
    apply String.eqb_neq in Hc, Hs. rewrite Hc, Hs.
    split; [|apply (first_max_ext reliability_of);
             [apply reliability_of_listed|]];
      apply max_by_spec.
  - reflexivity.
  - apply (min_by_spec cost_of PERPLEXITY [CLAUDE_3_OPUS; GPT4]).
  - apply (first_min_ext cost_of); [apply cost_of_listed|].
    apply (min_by_spec cost_of PERPLEXITY [CLAUDE_3_OPUS; GPT4]).
  - reflexivity.
  - reflexivity.
Qed.

Lemma select_model_priority_witness :
  candidates_for "document_generation" (Some 150000)
    = [CLAUDE_3_OPUS; CLAUDE_3_SONNET]
  ∧ candidates_for "document_generation" (Some 150000) ≠ []
  ∧ candidates_for "evidence_review" None ≠ []
  ∧ select_model "document_generation" (Some 150000) "cost" = CLAUDE_3_SONNET
  ∧ first_min listed_cost (candidates_for "document_generation" (Some 150000))
      (select_model "document_generation" (Some 150000) "cost")
  ∧ select_model "document_generation" (Some 150000) "speed"
    = CLAUDE_3_SONNET
  ∧ first_min listed_latency
      (candidates_for "document_generation" (Some 150000))
      (select_model "document_generation" (Some 150000) "speed")
  ∧ select_model "evidence_review" None "quality" = GPT4
  ∧ first_max listed_reliability (candidates_for "evidence_review" None)
      (select_model "evidence_review" None "quality").
Proof.
  assert (Hne : candidates_for "document_generation" (Some 150000) ≠ [])
    by (vm_compute; discriminate).
  assert (Hne' : candidates_for "evidence_review" None ≠ [])
    by (vm_compute; discriminate).
  split; [reflexivity|]. split; [exact Hne|]. split; [exact Hne'|].
  split; [reflexivity|]. split.
  { exact (proj2 (proj1 (proj2 (proj2 (select_model_priority
             "document_generation" (Some 150000) "cost" Hne))) eq_refl)). }
  split; [reflexivity|]. split.
  { exact (proj2 (proj1 (proj2 (proj2 (proj2 (select_model_priority
             "document_generation" (Some 150000) "speed" Hne)))) eq_refl)). }
  split; [reflexivity|].
  assert (Hq : "quality" ≠ "cost") by discriminate.
  assert (Hq' : "quality" ≠ "speed") by discriminate.
  exact (proj2 (proj1 (proj2 (proj2 (proj2 (proj2 (select_model_priority
           "evidence_review" None "quality" Hne'))))) Hq Hq')).
Defined.

(** The default priority on the same candidates, and the fall-back when
    no candidate has the context asked for. *)
Example select_model_quality :
  select_model "document_generation" (Some 150000) "quality" = CLAUDE_3_OPUS.
Proof. reflexivity. Qed.

Example select_model_no_candidate :
  select_model "legal_research" (Some 500000) "cost" = GPT4.
Proof. reflexivity. Qed.

(** *** Execution with fallback *)

(** No chain of the table starts with the model it ends with. *)
Lemma fallback_first_not_last task_type m1 m2 rest :
  _initialize_fallbacks task_type = m1 :: m2 :: rest →
  last (m1 :: m2 :: rest) ≠ Some m1.
Proof. destruct task_type; intros [= <- <- <-]; discriminate. Qed.

Section ExecuteSpec.
Context {World : Type}.
Variable time_time : World → Q.
Variable task_fn : ModelType → World → (string + string) * World.

(** The loop on a chain whose first model fails and whose second
    succeeds, the first not being the one the chain ends with. *)
Lemma walk_chain_second last_model m1 m2 rest r w calls e w1 out w2 :
  last_model ≠ Some m1 →
  task_fn m1 w = (inl e, w1) →
  task_fn m2 w1 = (inr out, w2) →
  let failed := {| success := false; output := None; model_used := m1;
                   execution_time := time_time w1 - time_time w;
                   tokens_used := 0; error := Some e |} in
  let ok := {| success := true; output := Some out; model_used := m2;
                 execution_time := time_time w2 - time_time w1;
                 tokens_used := 0; error := None |} in
  walk_chain World time_time task_fn last_model (m1 :: m2 :: rest) r w calls
  = Some {| result := inr ok;
            router := {| performance_log :=
                           (performance_log r ++ [failed; ok])%list |};
            world := w2;
            invoked := (calls ++ [m1; m2])%list |}.
Proof.
  intros Hlast H1 H2. simpl. rewrite H1.
  destruct (decide (Some m1 = last_model)) as [Heq|_]; [congruence|].
  rewrite H2. unfold log_append. simpl.
  by rewrite <- !app_assoc.
Qed.

(** C8.  For a task type whose chain has a first and a second model,
    when the task function raises on the first and returns on the
    second, [execute_with_fallback] returns a result with success set,
    the second model as the model used and the task's output; the
    performance log grows by exactly two entries, the first model's
    failure and then the second model's success; the task function is
    called on those two models only, in that order. *)
Theorem execute_with_fallback_second r task_type w m1 m2 rest e w1 out w2 :
  _initialize_fallbacks task_type = m1 :: m2 :: rest →
  task_fn m1 w = (inl e, w1) →
  task_fn m2 w1 = (inr out, w2) →
  let run := execute_with_fallback World time_time task_fn r task_type w in
  ∃ failed ok,
    result run = inr ok
    ∧ success ok = true ∧ model_used ok = m2 ∧ output ok = Some out
    ∧ performance_log (router run) = (performance_log r ++ [failed; ok])%list
    ∧ success failed = false ∧ model_used failed = m1
    ∧ error failed = Some e
    ∧ invoked run = [m1; m2]
    ∧ world run = w2.
Proof.
  intros Hchain H1 H2 run. subst run. unfold execute_with_fallback.
  rewrite Hchain.
  rewrite (walk_chain_second _ m1 m2 rest r w [] e w1 out w2);
    [|by apply (fallback_first_not_last task_type)|done..].
  eexists _, _. repeat split.
Qed.
End ExecuteSpec.

Lemma execute_with_fallback_second_witness :
  _initialize_fallbacks LEGAL_ANALYSIS = [GPT4; CLAUDE_3_OPUS; CLAUDE_3_SONNET]
  ∧ flaky_task GPT4 0%nat = (inl "rate limited", 1%nat)
  ∧ flaky_task CLAUDE_3_OPUS 1%nat = (inr "analysis", 3%nat)
  ∧ ∃ failed ok,
      result (execute_with_fallback nat nat_clock flaky_task new_router
                LEGAL_ANALYSIS 0%nat) = inr ok
      ∧ success ok = true ∧ model_used ok = CLAUDE_3_OPUS
      ∧ output ok = Some "analysis"
      ∧ performance_log (router (execute_with_fallback nat nat_clock
                                   flaky_task new_router LEGAL_ANALYSIS 0%nat))
        = (performance_log new_router ++ [failed; ok])%list
      ∧ success failed = false ∧ model_used failed = GPT4
      ∧ error failed = Some "rate limited"
      ∧ invoked (execute_with_fallback nat nat_clock flaky_task new_router
                   LEGAL_ANALYSIS 0%nat) = [GPT4; CLAUDE_3_OPUS]
      ∧ world (execute_with_fallback nat nat_clock flaky_task new_router
                 LEGAL_ANALYSIS 0%nat) = 3%nat.
Proof.
  split; [reflexivity|]. split; [reflexivity|]. split; [reflexivity|].
  exact (execute_with_fallback_second nat_clock flaky_task new_router
           LEGAL_ANALYSIS 0%nat GPT4 CLAUDE_3_OPUS [CLAUDE_3_SONNET]
           "rate limited" 1%nat "analysis" 3%nat eq_refl eq_refl eq_refl).
Defined.

(** When every model fails, the last failure is what comes back, after
    one call per model. *)
Example execute_with_fallback_exhausted :
  let run := execute_with_fallback nat nat_clock
               (λ _ w, (inl "down", S w)) new_router LEGAL_RESEARCH 0%nat in
  (success <$> performance_log (router run), invoked run,
   match result run with
   | inr res => Some (success res, model_used res, error res)
   | inl _ => None
   end)
  = ([false; false; false], [PERPLEXITY; CLAUDE_3_OPUS; GPT4],
     Some (false, GPT4, Some "down")).
Proof. reflexivity. Qed.

End FileBossSpec.


(** ** Further properties of the drafter *)

Module DrafterMore.
Import Drafter Notions Samples DrafterSpec.

(** *** The registry *)

(** X1.  [register] is an upsert read back by [get]: the source just
    registered is found under its id, every other id resolves as before,
    and registering again under the same id replaces the earlier
    source. *)
Theorem register_get (reg : Registry) ev ev' sid :
  get (register reg ev) (source_id ev) = Some ev
  ∧ (sid ≠ source_id ev → get (register reg ev) sid = get reg sid)
  ∧ (source_id ev' = source_id ev →
     register (register reg ev') ev = register reg ev).
Proof.
  unfold get, register. split; [apply lookup_insert_eq|]. split.
  - intros Hne. by apply lookup_insert_ne.
  - intros ->. apply insert_insert_eq.
Qed.

Lemma validate_citations_missing (reg : Registry) ids :
  (validate_citations reg ids).2 = List.filter (unregistered reg) ids.
Proof. reflexivity. Qed.

Lemma validate_citations_flag (reg : Registry) ids :
  (validate_citations reg ids).1 = true
  ↔ List.filter (unregistered reg) ids = [].
Proof.
  unfold validate_citations. simpl.
  destruct (List.filter (unregistered reg) ids); simpl; split; done.
Qed.

Lemma missing_nil_iff (reg : Registry) ids :
  List.filter (unregistered reg) ids = []
  ↔ Forall (λ eid, is_Some (reg !! eid)) ids.
Proof.
  split.
  - intros Hnil. apply Forall_forall. intros eid Hin.
    destruct (reg !! eid) as [ev|] eqn:Hev; [eauto|].
    assert (Hm : eid ∈ List.filter (unregistered reg) ids)
      by (apply missing_spec; auto).
    rewrite Hnil in Hm. by apply elem_of_nil in Hm.
  - intros Hall.
    pose proof (validate_citations_valid reg ids Hall) as Hv.
    by injection Hv.
Qed.

(** X2.  [validate_citations] checks every id: the flag is set exactly
    when all ids are registered, which is exactly when the missing list
    is empty; the missing list keeps the order of the ids given and holds
    exactly the unregistered ones, repetitions included. *)
Theorem validate_citations_spec (reg : Registry) ids :
  ((validate_citations reg ids).1 = true
     ↔ Forall (λ eid, is_Some (reg !! eid)) ids)
  ∧ ((validate_citations reg ids).1 = true
     ↔ (validate_citations reg ids).2 = [])
  ∧ (validate_citations reg ids).2 `sublist_of` ids
  ∧ ∀ eid, eid ∈ (validate_citations reg ids).2
           ↔ eid ∈ ids ∧ reg !! eid = None.
Proof.
  rewrite validate_citations_missing, validate_citations_flag.
  split; [apply missing_nil_iff|]. split; [done|].
  split; [apply FileBossSpec.filter_sublist|].
  intros eid. apply missing_spec.
Qed.

Lemma unregistered_register (reg : Registry) ev eid :
  unregistered (register reg ev) eid
  = unregistered reg eid && negb (String.eqb eid (source_id ev)).
Proof.
  unfold unregistered, register.
  destruct (String.eqb_spec eid (source_id ev)) as [->|Hne].
  - rewrite lookup_insert_eq. by rewrite andb_false_r.
  - rewrite lookup_insert_ne by done. by rewrite andb_true_r.
Qed.

Lemma filter_andb {A} (f g : A → bool) (l : list A) :
  List.filter (λ x, f x && g x) l = List.filter g (List.filter f l).
Proof.
  induction l as [|x l IH]; [done|].
  simpl. destruct (f x); simpl; [|exact IH].
  destruct (g x); by rewrite IH.
Qed.

(** X3.  Registering a source never makes a citation list worse: the
    missing ids afterwards are the missing ids before without the id just
    registered.  A list that validated before still validates. *)
Theorem register_validate_citations (reg : Registry) ev ids :
  (validate_citations (register reg ev) ids).2
    = List.filter (λ eid, negb (String.eqb eid (source_id ev)))
                  (validate_citations reg ids).2
  ∧ ((validate_citations reg ids).1 = true →
     (validate_citations (register reg ev) ids).1 = true).
Proof.
  assert (Hm : List.filter (unregistered (register reg ev)) ids
    = List.filter (λ eid, negb (String.eqb eid (source_id ev)))
                  (List.filter (unregistered reg) ids)).
  { rewrite <- filter_andb. apply filter_ext.
    intros eid. apply unregistered_register. }
  rewrite !validate_citations_missing. split; [exact Hm|].
  rewrite !validate_citations_flag, Hm. by intros ->.
Qed.

(** *** Drafting with citation required *)

Lemma str_take_length n s :
  String.length (str_take n s) = Nat.min n (String.length s).
Proof.
  revert s. induction n as [|n IH]; intros [|a s]; simpl; auto.
Qed.

Lemma str_take_all n s : (String.length s ≤ n)%nat → str_take n s = s.
Proof.
  revert s. induction n as [|n IH]; intros [|a s] Hle; simpl in *;
    try done; try lia.
  f_equal. apply IH. lia.
Qed.

Lemma str_take_prefix n s : is_prefix (str_take n s) s = true.
Proof.
  revert s. induction n as [|n IH]; intros [|a s]; simpl; auto.
  by rewrite Ascii.eqb_refl.
Qed.

(** X4.  With citation required and no evidence id, [draft_paragraph]
    raises the "Evidence required but not provided" error whatever the
    registry holds; the drafter is left as it was.  The preview the error
    carries is the content cut at 50 characters: a prefix of the content,
    at most 50 long, and the whole content when that is short enough. *)
Theorem draft_paragraph_missing_evidence d content :
  draft_paragraph d content [] true
    = (inl (MissingEvidence (str_take 50 content)), d)
  ∧ String.length (str_take 50 content)
      = Nat.min 50 (String.length content)
  ∧ is_prefix (str_take 50 content) content = true
  ∧ ((String.length content ≤ 50)%nat → str_take 50 content = content).
Proof.
  split; [reflexivity|]. split; [apply str_take_length|].
  split; [apply str_take_prefix|]. apply str_take_all.
Qed.

(** One call with citation required either leaves the drafter alone or
    records the paragraph, and it records only resolved, non-empty id
    lists. *)
Lemma draft_paragraph_required_step d content ids :
  ((draft_paragraph d content ids true).2 = d
   ∧ ∃ err, (draft_paragraph d content ids true).1 = inl err)
  ∨ (ids ≠ [] ∧ Forall (λ eid, is_Some (registry d !! eid)) ids
     ∧ draft_paragraph d content ids true
       = (inr (content +:+ " " +:+ _format_citations (registry d) ids),
          recorded d content ids)).
Proof.
  destruct ids as [|eid0 ids]; [left; split; [done|by eexists]|].
  destruct (decide (Forall (λ eid, is_Some (registry d !! eid))
                           (eid0 :: ids))) as [Hall|Hnot].
  - right. split; [done|]. split; [done|].
    by apply draft_paragraph_checked.
  - left. apply not_Forall_Exists in Hnot; [|apply _].
    apply Exists_exists in Hnot as (eid & Hin & Hnone).
    assert (Hn : registry d !! eid = None).
    { destruct (registry d !! eid) eqn:E; [|done].
      exfalso. apply Hnone. eauto. }
    unfold draft_paragraph.
    rewrite (validate_citations_invalid _ _ eid Hin Hn).
    split; [done|by eexists].
Qed.

(** X5.  With citation required, [draft_paragraph] returns text exactly
    when the id list is non-empty and every id is registered.  It then
    appends one citation, holding the content, the ids and the content's
    length as location; otherwise it raises and the drafter is
    unchanged.  The registry is never touched. *)
Theorem draft_paragraph_required_outcome d content ids :
  ((∃ txt, (draft_paragraph d content ids true).1 = inr txt)
     ↔ ids ≠ [] ∧ Forall (λ eid, is_Some (registry d !! eid)) ids)
  ∧ ((∃ txt, (draft_paragraph d content ids true).1 = inr txt) →
     citations (draft_paragraph d content ids true).2
       = (citations d ++ [{| text := content; evidence_ids := ids;
                             location := Z.of_nat (String.length content) |}])%list)
  ∧ ((∃ err, (draft_paragraph d content ids true).1 = inl err) →
     (draft_paragraph d content ids true).2 = d)
  ∧ registry (draft_paragraph d content ids true).2 = registry d.
Proof.
  destruct (draft_paragraph_required_step d content ids)
    as [[Hd [err Herr]] | (Hne & Hall & Heq)].
  - split; [|split; [|split]].
    + split.
      * intros [txt Htxt]. congruence.
      * intros [Hne Hall].
        rewrite draft_paragraph_checked in Herr by done. discriminate.
    + intros [txt Htxt]. congruence.
    + done.
    + by rewrite Hd.
  - rewrite Heq. simpl. split; [|split; [|split]]; try done.
    + split; [done|]. intros _. by eexists.
    + intros [err Herr]. discriminate.
Qed.

Lemma grounded_step d content ids :
  grounded d → grounded (draft_paragraph d content ids true).2.
Proof.
  intros Hg.
  destruct (draft_paragraph_required_step d content ids)
    as [[Hd _] | (Hne & Hall & Heq)]; [by rewrite Hd|].
  rewrite Heq. unfold grounded, recorded. simpl.
  apply Forall_app. split; [exact Hg|].
  constructor; [|constructor]. by split.
Qed.

(** *** The log and the caller's lists *)

Lemma grounded_register d ev :
  grounded d →
  grounded {| registry := register (registry d) ev;
              citations := citations d |}.
Proof.
  unfold grounded. cbn [registry citations]. intros Hg.
  eapply Forall_impl; [exact Hg|]. intros c [Hne Hall]. split; [done|].
  eapply Forall_impl; [exact Hall|]. intros eid Hsome.
  unfold register. rewrite lookup_insert. by case_decide.
Qed.

Lemma snapshot_set_unrecorded (ls : DrafterObjects.Lists) d a ids :
  a ∉ DrafterObjects.ids_at <$> DrafterObjects.citations_of d →
  DrafterObjects.snapshot (<[a := ids]> ls) d = DrafterObjects.snapshot ls d.
Proof.
  intros Hfresh. unfold DrafterObjects.snapshot. f_equal.
  induction (DrafterObjects.citations_of d) as [|c cs IH]; [done|].
  cbn [fmap list_fmap] in *. apply not_elem_of_cons in Hfresh as [Hc Hcs].
  rewrite (IH Hcs). f_equal.
  unfold DrafterObjects.read_citation, DrafterObjects.read_list.
  by rewrite lookup_insert_ne.
Qed.

Lemma snapshot_draft (ls : DrafterObjects.Lists) d content a :
  DrafterObjects.snapshot ls
    (DrafterObjects.draft_paragraph_obj ls d content a true).2
  = (draft_paragraph (DrafterObjects.snapshot ls d) content
       (DrafterObjects.read_list ls a) true).2.
Proof.
  unfold DrafterObjects.draft_paragraph_obj.
  destruct (draft_paragraph_required_step (DrafterObjects.snapshot ls d)
              content (DrafterObjects.read_list ls a))
    as [[Hd [err Herr]] | (_ & _ & Heq)].
  - by rewrite Herr, Hd.
  - rewrite Heq. cbn [fst snd]. unfold DrafterObjects.snapshot, recorded.
    cbn [DrafterObjects.registry_of DrafterObjects.citations_of registry
         citations].
    by rewrite fmap_app.
Qed.

Lemma act_grounded s x :
  (∀ a ids, x = DrafterObjects.SetList a ids →
            a ∉ DrafterObjects.ids_at <$> DrafterObjects.citations_of s.2) →
  grounded (DrafterObjects.snapshot s.1 s.2) →
  grounded (DrafterObjects.snapshot (DrafterObjects.act s x).1
                                    (DrafterObjects.act s x).2).
Proof.
  intros Hkeep Hg. destruct x as [content a|a ids|ev]; cbn [DrafterObjects.act fst snd].
  - rewrite snapshot_draft. by apply grounded_step.
  - rewrite snapshot_set_unrecorded; [done|]. by apply (Hkeep a ids).
  - by apply (grounded_register (DrafterObjects.snapshot s.1 s.2)).
Qed.

Lemma act_citations_prefix s x :
  DrafterObjects.citations_of s.2
    `prefix_of` DrafterObjects.citations_of (DrafterObjects.act s x).2.
Proof.
  destruct x as [content a|a ids|ev]; cbn [DrafterObjects.act fst snd]; [|done..].
  unfold DrafterObjects.draft_paragraph_obj.
  destruct (draft_paragraph _ _ _ _).1; cbn [snd]; [done|].
  by apply prefix_app_r.
Qed.

(** X6.  Citations hold the list objects they were given.  As long as
    the caller never changes a list that a recorded citation holds, the
    log stays grounded through any sequence of drafts with citation
    required (refused ones included), new or changed lists and
    registrations: every recorded citation reads as naming at least one
    id and registered ids only.  Recorded citations keep their place at
    the front of the log. *)
Theorem draft_objects_grounded s xs :
  grounded (DrafterObjects.snapshot s.1 s.2) →
  keeps_recorded s xs →
  grounded (DrafterObjects.snapshot (foldl DrafterObjects.act s xs).1
                                    (foldl DrafterObjects.act s xs).2)
  ∧ DrafterObjects.citations_of s.2
      `prefix_of` DrafterObjects.citations_of
                    (foldl DrafterObjects.act s xs).2.
Proof.
  revert s. induction xs as [|x xs IH]; intros s Hg Hkeep; [done|].
  cbn [foldl]. destruct Hkeep as [Hx Hrest].
  destruct (IH (DrafterObjects.act s x) (act_grounded s x Hx Hg) Hrest)
    as [Hg' Hpre].
  split; [done|]. etrans; [apply (act_citations_prefix s x)|done].
Qed.

Lemma careful_caller_keeps : keeps_recorded fresh_objects careful_caller.
Proof.
  unfold careful_caller.
  repeat (split; [intros a ids [= <- <-] || (intros a ids; discriminate)|]);
    try done.
  all: vm_compute; intros Hin;
    repeat (apply elem_of_cons in Hin as [Hin|Hin]; [discriminate|]);
    by apply elem_of_nil in Hin.
Qed.

Lemma draft_objects_grounded_witness :
  grounded (DrafterObjects.snapshot fresh_objects.1 fresh_objects.2)
  ∧ keeps_recorded fresh_objects careful_caller
  ∧ grounded (DrafterObjects.snapshot
                (foldl DrafterObjects.act fresh_objects careful_caller).1
                (foldl DrafterObjects.act fresh_objects careful_caller).2)
  ∧ (evidence_ids
       <$> citations (DrafterObjects.snapshot
             (foldl DrafterObjects.act fresh_objects careful_caller).1
             (foldl DrafterObjects.act fresh_objects careful_caller).2))
    = [["email_20231015"]; ["late"]].
Proof.
  assert (Hg : grounded (DrafterObjects.snapshot fresh_objects.1
                                                 fresh_objects.2))
    by constructor.
  split; [exact Hg|]. split; [exact careful_caller_keeps|].
  split; [|vm_compute; reflexivity].
  exact (proj1 (draft_objects_grounded fresh_objects careful_caller Hg
                  careful_caller_keeps)).
Defined.

(** A caller that appends an unknown id to a list it has cited: the
    second call is refused, and the citation of the first now names the
    unknown id. *)
Example careless_caller_ungrounded :
  (evidence_ids
     <$> citations (DrafterObjects.snapshot
           (foldl DrafterObjects.act fresh_objects careless_caller).1
           (foldl DrafterObjects.act fresh_objects careless_caller).2))
    = [["email_20231015"; "ghost"]]
  ∧ demo_registry !! "ghost" = None
  ∧ ¬ keeps_recorded fresh_objects careless_caller.
Proof.
  split; [vm_compute; reflexivity|]. split; [reflexivity|].
  intros (_ & _ & Hset & _). apply (Hset 0%nat _ eq_refl).
  vm_compute. apply list_elem_of_here.
Qed.

(** *** The uncited-claim scan *)

Lemma filter_all {A} (f : A → bool) (l : list A) :
  (∀ x, f x = true) → List.filter f l = l.
Proof.
  intros Hf. induction l as [|x l IH]; [done|].
  simpl. by rewrite Hf, IH.
Qed.

Lemma filter_sublist_impl {A} (f g : A → bool) (l : list A) :
  (∀ x, f x = true → g x = true) →
  List.filter f l `sublist_of` List.filter g l.
Proof.
  intros Hfg. induction l as [|x l IH]; [done|].
  simpl. destruct (f x) eqn:Hf.
  - rewrite (Hfg x Hf). by constructor.
  - destruct (g x); [by constructor|done].
Qed.

Lemma flat_map_sublist {A B} (F G : A → list B) (l : list A) :
  (∀ x, F x `sublist_of` G x) →
  flat_map F l `sublist_of` flat_map G l.
Proof.
  intros HFG. induction l as [|x l IH]; [done|].
  simpl. by apply sublist_app.
Qed.

Lemma flat_map_nil_iff {A B} (F : A → list B) (l : list A) :
  flat_map F l = [] ↔ ∀ x, x ∈ l → F x = [].
Proof.
  induction l as [|x l IH]; simpl.
  - split; [|done]. intros _ x Hx. by apply elem_of_nil in Hx.
  - split.
    + intros [Hx Hl]%app_eq_nil y [->|Hy]%elem_of_cons; [done|].
      by apply IH.
    + intros Hall. rewrite (Hall x) by apply list_elem_of_here.
      apply IH. intros y Hy. apply Hall. by apply list_elem_of_further.
Qed.

Lemma validate_document_flag d document :
  (validate_document d document).1 = true
  ↔ (validate_document d document).2 = [].
Proof.
  unfold validate_document. simpl.
  destruct (group <$> uncited_matches d document); simpl; split; done.
Qed.

(** X7.  A drafter that has recorded no citation reports every match of
    every claim pattern, pattern by pattern; its document is valid
    exactly when no pattern matches anywhere. *)
Theorem validate_document_no_citations d document :
  citations d = [] →
  (validate_document d document).2
    = group <$> flat_map (λ pattern, finditer pattern document) claim_patterns
  ∧ ((validate_document d document).1 = true
     ↔ ∀ pattern, pattern ∈ claim_patterns → finditer pattern document = []).
Proof.
  intros Hc.
  assert (Hu : uncited_matches d document
    = flat_map (λ pattern, finditer pattern document) claim_patterns).
  { unfold uncited_matches. rewrite Hc. apply flat_map_ext.
    intros pattern. by apply filter_all. }
  split; [by rewrite validate_document_claims, Hu|].
  rewrite validate_document_flag, validate_document_claims, Hu.
  rewrite <- flat_map_nil_iff. split; [apply fmap_nil_inv|by intros ->].
Qed.

Lemma validate_document_no_citations_witness :
  citations (new_drafter demo_registry) = []
  ∧ (validate_document (new_drafter demo_registry) demo_document).2
    = ["$100"; "$200"].
Proof.
  split; [reflexivity|].
  exact (eq_trans
           (proj1 (validate_document_no_citations
                     (new_drafter demo_registry) demo_document eq_refl))
           eq_refl).
Defined.

Lemma has_nearby_citation_mono cs cs' pos :
  (∀ c, c ∈ cs → c ∈ cs') →
  has_nearby_citation cs pos = true → has_nearby_citation cs' pos = true.
Proof.
  intros Hsub. unfold has_nearby_citation. rewrite !existsb_exists.
  intros (c & Hin & Hc). exists c. split; [|done].
  apply list_elem_of_In, Hsub. by apply list_elem_of_In.
Qed.

(** X8.  Recording more citations never adds an uncited claim: when
    every citation of one drafter is also recorded by another, the
    claims the second reports for a document are a sublist of the first's
    (same order, some dropped), and a document valid for the first is
    valid for the second. *)
Theorem validate_document_more_citations d d' document :
  (∀ c, c ∈ citations d → c ∈ citations d') →
  (validate_document d' document).2
    `sublist_of` (validate_document d document).2
  ∧ ((validate_document d document).1 = true →
     (validate_document d' document).1 = true).
Proof.
  intros Hsub.
  assert (Hs : (validate_document d' document).2
                 `sublist_of` (validate_document d document).2).
  { rewrite !validate_document_claims. apply fmap_sublist.
    unfold uncited_matches. apply flat_map_sublist. intros pattern.
    apply filter_sublist_impl. intros m Hm.
    apply negb_true_iff in Hm. apply negb_true_iff.
    destruct (has_nearby_citation (citations d) (start m)) eqn:Hn; [|done].
    by rewrite (has_nearby_citation_mono _ _ _ Hsub Hn) in Hm. }
  split; [exact Hs|].
  rewrite !validate_document_flag. intros Hnil. rewrite Hnil in Hs.
  by apply sublist_nil_r in Hs.
Qed.

Lemma validate_document_more_citations_witness :
  (∀ c, c ∈ citations (new_drafter demo_registry) → c ∈ citations demo_drafter)
  ∧ (validate_document demo_drafter demo_document).2 = ["$200"]
  ∧ (validate_document (new_drafter demo_registry) demo_document).2
    = ["$100"; "$200"]
  ∧ (validate_document demo_drafter demo_document).2
      `sublist_of` (validate_document (new_drafter demo_registry)
                      demo_document).2.
Proof.
  assert (Hsub : ∀ c, c ∈ citations (new_drafter demo_registry) →
                      c ∈ citations demo_drafter).
  { intros c Hc. by apply elem_of_nil in Hc. }
  split; [exact Hsub|]. split; [reflexivity|]. split; [reflexivity|].
  exact (proj1 (validate_document_more_citations
                  (new_drafter demo_registry) demo_drafter demo_document
                  Hsub)).
Defined.

(** *** The exhibit list: the last reference wins *)

Lemma exhibits_last_write reg ids m0 l :
  foldl (exhibit_step reg) m0 ids !! l
  = match last_labelled reg ids l with
    | Some v => Some v
    | None => m0 !! l
    end.
Proof.
  revert m0. induction ids as [|e ids IH]; intros m0; [done|].
  cbn [foldl]. rewrite IH, exhibit_step_labelled.
  unfold last_labelled. cbn [omap list_omap].
  destruct (labelled reg e) as [[l' v']|]; [|done].
  cbn [List.filter fst]. destruct (String.eqb_spec l' l) as [->|Hne].
  - rewrite last_cons.
    destruct (last (List.filter _ _)) as [[l1 v1]|]; [done|].
    simpl. apply lookup_insert_eq.
  - destruct (last (List.filter _ _)) as [[l1 v1]|]; [done|].
    simpl. by apply lookup_insert_ne.
Qed.

Lemma collect_exhibits_last_write reg h l :
  collect_exhibits reg h !! l = last_labelled reg (cited_ids h) l.
Proof.
  unfold collect_exhibits.
  rewrite collect_exhibits_fold, exhibits_last_write, lookup_empty.
  by destruct (last_labelled reg (cited_ids h) l).
Qed.

Lemma last_labelled_snoc reg ids e l v :
  labelled reg e = Some (l, v) → last_labelled reg (ids ++ [e]) l = Some v.
Proof.
  intros Hlab. unfold last_labelled.
  rewrite omap_app, List.filter_app, last_app.
  cbn [omap list_omap]. rewrite Hlab. cbn [List.filter fst].
  by rewrite String.eqb_refl.
Qed.

(** X9.  Whatever the history, the exhibit list is the header, one line
    per label and the footer; the labels are in ascending order without
    repetition; a label is listed exactly when some cited id resolves to
    a source carrying it, and the description on its line is that of the
    last such id in citation order.  A later reference to a source with
    the same label therefore replaces the description. *)
Theorem generate_exhibit_list_last_wins (reg : Registry) h :
  (∃ items : list (string * string),
      generate_exhibit_list {| registry := reg; citations := h |}
        = join nl ([exhibits_header] ++ (render_item <$> items)
                     ++ [exhibits_footer])%list
      ∧ Sorted String.le items.*1
      ∧ NoDup items.*1
      ∧ ∀ l dsc, (l, dsc) ∈ items ↔
          ∃ v, last_labelled reg (cited_ids h) l = Some v
               ∧ description v = dsc)
  ∧ (∀ l, is_Some (last_labelled reg (cited_ids h) l)
          ↔ ∃ dsc, cited_exhibit reg (cited_ids h) l dsc)
  ∧ ∀ c e l v, last (evidence_ids c) = Some e →
      reg !! e = Some v → exhibit_number v = Some l → l ≠ "" →
      last_labelled reg (cited_ids (h ++ [c])) l = Some v.
Proof.
  split; [|split].
  - exists (exhibit_items (collect_exhibits reg h)).
    split; [apply generate_exhibit_list_items|].
    rewrite exhibit_items_fst.
    split; [apply sorted_keys_sorted|]. split; [apply sorted_keys_NoDup|].
    intros l dsc. rewrite exhibit_items_elem.
    by setoid_rewrite collect_exhibits_last_write.
  - intros l. rewrite <- collect_exhibits_last_write. split.
    + intros [v Hv]. exists (description v).
      by apply collect_exhibits_sound.
    + intros [dsc Hc]. by apply (collect_exhibits_complete _ _ _ dsc).
  - intros c e l v Hlast Hv Hx Hne.
    assert (Hlab : labelled reg e = Some (l, v)) by by apply labelled_Some.
    apply last_Some in Hlast as [ids' Hids].
    unfold cited_ids. rewrite flat_map_app. simpl.
    rewrite app_nil_r, Hids, app_assoc.
    by apply last_labelled_snoc.
Qed.

(** Two sources under one label: the list shows the one cited last. *)
Example generate_exhibit_list_relabelled :
  let e1 := {| source_id := "e1"; description := "Letter"; file_path := None;
               page_numbers := None; exhibit_number := Some "A" |} in
  let e2 := {| source_id := "e2"; description := "Invoice"; file_path := None;
               page_numbers := None; exhibit_number := Some "A" |} in
  let reg := register (register ∅ e1) e2 in
  let cite id := {| text := "One"; evidence_ids := [id]; location := 3 |} in
  generate_exhibit_list {| registry := reg; citations := [cite "e1"; cite "e2"] |}
    = exhibits_header +:+ nl +:+ "  \item Exhibit A: Invoice" +:+ nl
      +:+ exhibits_footer
  ∧ generate_exhibit_list {| registry := reg; citations := [cite "e2"; cite "e1"] |}
    = exhibits_header +:+ nl +:+ "  \item Exhibit A: Letter" +:+ nl
      +:+ exhibits_footer.
Proof. split; vm_compute; reflexivity. Qed.

Lemma sorted_keys_empty {V} : sorted_keys (∅ : gmap string V) = [].
Proof. unfold sorted_keys. by rewrite map_to_list_empty. Qed.

(** X10.  When no cited id resolves to a source with a non-empty exhibit
    label (nothing cited yet, ids unknown to the registry, or sources
    without label), the exhibit list is the header followed directly by
    the footer. *)
Theorem generate_exhibit_list_no_exhibit (reg : Registry) h :
  (∀ eid v, eid ∈ cited_ids h → reg !! eid = Some v →
            truthy_ostr (exhibit_number v) = false) →
  generate_exhibit_list {| registry := reg; citations := h |}
    = exhibits_header +:+ nl +:+ exhibits_footer.
Proof.
  intros Hnone.
  assert (Hm : collect_exhibits reg h = ∅).
  { apply map_eq. intros l. rewrite lookup_empty.
    destruct (collect_exhibits reg h !! l) as [v|] eqn:Hl; [|done].
    apply collect_exhibits_sound in Hl as (e & v' & He & Hv & Hx & Hne & _).
    specialize (Hnone e v' He Hv). rewrite Hx in Hnone.
    destruct l; [done|discriminate]. }
  rewrite generate_exhibit_list_items, Hm.
  unfold exhibit_items. by rewrite (@sorted_keys_empty EvidenceSource).
Qed.

Lemma generate_exhibit_list_no_exhibit_witness :
  (∀ eid v, eid ∈ cited_ids (citations demo_drafter) →
            demo_registry !! eid = Some v →
            truthy_ostr (exhibit_number v) = false)
  ∧ generate_exhibit_list demo_drafter
    = "\section*{Exhibits}" +:+ nl +:+ "\begin{enumerate}" +:+ nl
      +:+ "\end{enumerate}".
Proof.
  assert (H : ∀ eid v, eid ∈ cited_ids (citations demo_drafter) →
                demo_registry !! eid = Some v →
                truthy_ostr (exhibit_number v) = false).
  { intros eid v Hin Hv. vm_compute in Hin.
    apply elem_of_cons in Hin as [->|Hin]; [|by apply elem_of_nil in Hin].
    vm_compute in Hv. by injection Hv as <-. }
  split; [exact H|].
  exact (generate_exhibit_list_no_exhibit demo_registry
           (citations demo_drafter) H).
Defined.

(** X11.  Drafting the same paragraphs a second time leaves the exhibit
    list as it was: repeated references add no line and change no
    description. *)
Theorem generate_exhibit_list_repeat (reg : Registry) h :
  generate_exhibit_list {| registry := reg; citations := h ++ h |}
    = generate_exhibit_list {| registry := reg; citations := h |}.
Proof.
  assert (Hm : collect_exhibits reg (h ++ h) = collect_exhibits reg h).
  { apply map_eq. intros l. rewrite !collect_exhibits_last_write.
    unfold last_labelled, cited_ids.
    rewrite flat_map_app, omap_app, List.filter_app, last_app.
    by destruct (last _). }
  by rewrite !generate_exhibit_list_items, Hm.
Qed.

End DrafterMore.

(** ** Further properties of the compliance validator *)

Module JurisdictionMore.
Import Jurisdiction Notions Samples.

(** *** The registry *)

Lemma default_profiles_lookup cid :
  _load_default_profiles !! cid
  = if decide (cid = "ca9") then Some ca9
    else if decide (cid = "cand") then Some cand
    else if decide (cid = "hi_family") then Some hi_family
    else None.
Proof.
  unfold _load_default_profiles, register_profile.
  change (court_id ca9) with "ca9". change (court_id cand) with "cand".
  change (court_id hi_family) with "hi_family".
  rewrite !lookup_insert, lookup_empty.
  repeat case_decide; congruence.
Qed.

(** X12.  [register_profile] is an upsert read back by [get_profile]: the
    profile just registered is found under its court id and the other
    ids resolve as before, so every profile stays filed under its own
    id.  A fresh registry resolves exactly "hi_family", "cand" and "ca9",
    each to the profile of that id; re-registering one of them replaces
    the default. *)
Theorem register_profile_get (reg : Profiles) profile cid :
  get_profile (register_profile reg profile) (court_id profile) = Some profile
  ∧ (cid ≠ court_id profile →
     get_profile (register_profile reg profile) cid = get_profile reg cid)
  ∧ (keyed reg → keyed (register_profile reg profile))
  ∧ keyed _load_default_profiles
  ∧ (is_Some (get_profile _load_default_profiles cid)
     ↔ cid = "hi_family" ∨ cid = "cand" ∨ cid = "ca9").
Proof.
  unfold get_profile, register_profile.
  split; [apply lookup_insert_eq|].
  split; [intros Hne; by apply lookup_insert_ne|].
  split; [|split].
  - intros Hk c p. rewrite lookup_insert. case_decide.
    + intros [= <-]. done.
    + apply Hk.
  - intros c p. rewrite default_profiles_lookup.
    repeat case_decide; intros [= <-]; by subst.
  - rewrite default_profiles_lookup.
    destruct (decide (cid = "ca9")) as [->|H1]; [split; eauto|].
    destruct (decide (cid = "cand")) as [->|H2]; [split; eauto|].
    destruct (decide (cid = "hi_family")) as [->|H3]; [split; eauto|].
    split; [intros [? [=]]|]. intros [?|[?|?]]; congruence.
Qed.

(** *** Substring tests *)

Lemma str_app_cons a s t : String a s +:+ t = String a (s +:+ t).
Proof. reflexivity. Qed.

Lemma str_app_nil t : "" +:+ t = t.
Proof. reflexivity. Qed.

Lemma str_contains_in_empty a s : str_contains (String a s) "" = false.
Proof. reflexivity. Qed.

Lemma is_prefix_app sub s t :
  is_prefix sub s = true → is_prefix sub (s +:+ t) = true.
Proof.
  revert s. induction sub as [|a sub IH]; intros s; [done|].
  destruct s as [|b s]; [done|]. rewrite str_app_cons. simpl.
  destruct (Ascii.eqb a b); [apply IH|done].
Qed.

Lemma str_contains_unfold sub s :
  str_contains sub s
  = if is_prefix sub s then true
    else match s with
         | EmptyString => false
         | String _ s' => str_contains sub s'
         end.
Proof. by destruct s. Qed.

Lemma str_contains_app_l sub s t :
  str_contains sub s = true → str_contains sub (s +:+ t) = true.
Proof.
  induction s as [|b s IH].
  - rewrite str_contains_unfold. destruct (is_prefix sub "") eqn:Hp; [|done].
    intros _. destruct sub; [|done]. by destruct t.
  - rewrite str_contains_unfold, str_app_cons.
    rewrite (str_contains_unfold sub (String b (s +:+ t))).
    destruct (is_prefix sub (String b s)) eqn:Hp.
    + intros _. apply (is_prefix_app _ _ t) in Hp.
      rewrite str_app_cons in Hp. by rewrite Hp.
    + intros Hc. rewrite (IH Hc).
      destruct (is_prefix sub (String b (s +:+ t))); reflexivity.
Qed.

Lemma str_contains_app_r sub s t :
  str_contains sub s = true → str_contains sub (t +:+ s) = true.
Proof.
  intros Hc. induction t as [|b t IH]; [done|].
  rewrite str_app_cons, str_contains_unfold, IH.
  destruct (is_prefix sub (String b (t +:+ s))); reflexivity.
Qed.

Lemma lower_app s t : lower (s +:+ t) = lower s +:+ lower t.
Proof.
  induction s as [|a s IH]; [done|].
  rewrite str_app_cons. simpl. by rewrite IH.
Qed.

Lemma str_contains_around sub pre s post :
  str_contains sub s = true →
  str_contains sub (pre +:+ s +:+ post) = true.
Proof. intros H. by apply str_contains_app_r, str_contains_app_l. Qed.

Lemma guard_sublist (req b1 b2 : bool) (msg : string) :
  (b2 = true → b1 = true) →
  (if req && negb b1 then [msg] else [])
    `sublist_of` (if req && negb b2 then [msg] else []).
Proof.
  intros H. destruct req, b2; simpl; [by rewrite H| |done|done].
  destruct b1; simpl; [by constructor|done].
Qed.

Section Checks.
Variable float_str : Q → string.

Lemma check_formatting_around pre content post rules :
  _check_formatting float_str (pre +:+ content +:+ post) rules
    `sublist_of` _check_formatting float_str content rules.
Proof.
  unfold _check_formatting.
  apply sublist_app; apply guard_sublist, str_contains_around.
Qed.

Lemma check_filing_rules_around pre content post rules :
  _check_filing_rules (pre +:+ content +:+ post) rules
    `sublist_of` _check_filing_rules content rules.
Proof.
  unfold _check_filing_rules. rewrite !lower_app.
  repeat apply sublist_app; apply guard_sublist, str_contains_around.
Qed.

Lemma check_special_rules_around pre content post rules :
  _check_special_rules (pre +:+ content +:+ post) rules
    `sublist_of` _check_special_rules content rules.
Proof.
  unfold _check_special_rules. rewrite !lower_app.
  apply sublist_app; apply guard_sublist, str_contains_around.
Qed.

Lemma compliance_flag_iff (reg : Profiles) (fs : gmap string string)
    path cid :
  (validate_document float_str reg fs path cid).1.1 = true
  ↔ (validate_document float_str reg fs path cid).1.2 = [].
Proof.
  unfold validate_document. destruct (get_profile reg cid); [|done].
  destruct (fs !! path); simpl;
    match goal with |- context [length ?l] => destruct l end; done.
Qed.

(** X13.  Adding text to a document never adds a violation: for a
    registered court, the report on a file holding more text before and
    after the same content is a sublist of the report on the content
    alone, and a compliant document stays compliant. *)
Theorem validate_document_more_text (reg : Profiles)
    (fs fs' : gmap string string) path cid profile pre content post :
  reg !! cid = Some profile →
  fs !! path = Some content →
  fs' !! path = Some (pre +:+ content +:+ post) →
  (validate_document float_str reg fs' path cid).1.2
    `sublist_of` (validate_document float_str reg fs path cid).1.2
  ∧ ((validate_document float_str reg fs path cid).1.1 = true →
     (validate_document float_str reg fs' path cid).1.1 = true).
Proof.
  intros Hp Hf Hf'.
  assert (Hs : (validate_document float_str reg fs' path cid).1.2
    `sublist_of` (validate_document float_str reg fs path cid).1.2).
  { unfold validate_document, get_profile. rewrite Hp, Hf, Hf'.
    cbn [fst snd]. apply sublist_app; [|apply sublist_app].
    - apply check_formatting_around.
    - apply check_filing_rules_around.
    - apply check_special_rules_around. }
  split; [exact Hs|].
  rewrite !compliance_flag_iff. intros Hnil. rewrite Hnil in Hs.
  by apply sublist_nil_r in Hs.
Qed.

End Checks.

Lemma validate_document_more_text_witness :
  _load_default_profiles !! "hi_family" = Some hi_family
  ∧ test_fs !! "test.tex" = Some test_document
  ∧ test_fs_noticed !! "test.tex"
    = Some ("" +:+ test_document +:+ "Notice to pro se parties")
  ∧ (validate_document one_decimal_str _load_default_profiles test_fs
       "test.tex" "hi_family").1.2
    = ["Required line spacing 2.0 not set";
       "Pro se notice may be required for self-represented litigants"]
  ∧ (validate_document one_decimal_str _load_default_profiles
       test_fs_noticed "test.tex" "hi_family").1.2
      `sublist_of`
    (validate_document one_decimal_str _load_default_profiles test_fs
       "test.tex" "hi_family").1.2.
Proof.
  split; [reflexivity|]. split; [reflexivity|]. split; [reflexivity|].
  split; [vm_compute; reflexivity|].
  exact (proj1 (validate_document_more_text one_decimal_str
                  _load_default_profiles test_fs test_fs_noticed
                  "test.tex" "hi_family"
                  hi_family "" test_document "Notice to pro se parties"
                  eq_refl eq_refl eq_refl)).
Defined.

(** *** A missing or empty document *)

Section EmptyDocument.
Variable float_str : Q → string.

Lemma check_formatting_empty rules :
  _check_formatting float_str "" rules
  = ((if negb (Nat.eqb (String.length (font_family rules)) 0)
      then ["Required font '" +:+ font_family rules +:+ "' not specified"]
      else [])
     ++ (if negb (Qeq_bool (line_spacing rules) 0)
         then ["Required line spacing " +:+ float_str (line_spacing rules)
               +:+ " not set"]
         else []))%list.
Proof.
  unfold _check_formatting.
  rewrite !str_app_cons, !str_contains_in_empty. simpl negb.
  by rewrite !andb_true_r.
Qed.

Lemma check_filing_rules_empty rules :
  _check_filing_rules "" rules
  = ((if certificate_of_service_required rules
      then ["Certificate of Service required but not found"] else [])
     ++ (if verification_required rules
         then ["Verification required but not found"] else [])
     ++ (if table_of_authorities_required rules
         then ["Table of Authorities required but not found"] else []))%list.
Proof.
  unfold _check_filing_rules. simpl lower.
  rewrite !str_contains_in_empty. simpl negb. by rewrite !andb_true_r.
Qed.

Lemma check_special_rules_empty rules :
  _check_special_rules "" rules
  = ((if flagged rules "pro_se_notice_required"
      then ["Pro se notice may be required for self-represented litigants"]
      else [])
     ++ (if flagged rules "certificate_of_compliance_required"
         then ["Certificate of Compliance required but not found"]
         else []))%list.
Proof.
  unfold _check_special_rules. simpl lower.
  rewrite !str_contains_in_empty. simpl negb. by rewrite !andb_true_r.
Qed.

Lemma guard_elem (req : bool) (msg : string) :
  req = true → msg ∈ (if req then [msg] else []).
Proof. intros ->. apply list_elem_of_here. Qed.

Lemma guard_nil (req : bool) (msg : string) :
  (if req then [msg] else []) = [] → req = false.
Proof. by destruct req. Qed.

(** X14.  A document that does not exist is checked as empty text, after
    one existence test and no read, and gets the report an existing
    empty file gets.  It fails every check the profile asks for: the
    font and line-spacing directives when the profile names them, each
    filing requirement that is switched on, each special rule that is
    flagged.  It is compliant only for a profile that asks for
    nothing. *)
Theorem validate_document_missing_file (reg : Profiles)
    (fs : gmap string string) path cid profile :
  reg !! cid = Some profile →
  fs !! path = None →
  let out := validate_document float_str reg fs path cid in
  out.2 = [Exists path]
  ∧ out.1 = (validate_document float_str reg (<[path := ""]> fs) path cid).1
  ∧ (font_family (formatting profile) ≠ "" →
     ("Required font '" +:+ font_family (formatting profile)
        +:+ "' not specified") ∈ out.1.2)
  ∧ (Qeq_bool (line_spacing (formatting profile)) 0 = false →
     ("Required line spacing "
        +:+ float_str (line_spacing (formatting profile)) +:+ " not set")
       ∈ out.1.2)
  ∧ (certificate_of_service_required (filing profile) = true →
     "Certificate of Service required but not found" ∈ out.1.2)
  ∧ (verification_required (filing profile) = true →
     "Verification required but not found" ∈ out.1.2)
  ∧ (table_of_authorities_required (filing profile) = true →
     "Table of Authorities required but not found" ∈ out.1.2)
  ∧ (flagged (special_rules profile) "pro_se_notice_required" = true →
     "Pro se notice may be required for self-represented litigants"
       ∈ out.1.2)
  ∧ (flagged (special_rules profile) "certificate_of_compliance_required"
       = true →
     "Certificate of Compliance required but not found" ∈ out.1.2)
  ∧ (out.1.1 = true →
     font_family (formatting profile) = ""
     ∧ Qeq_bool (line_spacing (formatting profile)) 0 = true
     ∧ certificate_of_service_required (filing profile) = false
     ∧ verification_required (filing profile) = false
     ∧ table_of_authorities_required (filing profile) = false
     ∧ flagged (special_rules profile) "pro_se_notice_required" = false
     ∧ flagged (special_rules profile) "certificate_of_compliance_required"
         = false).
Proof.
  intros Hp Hf out.
  assert (Hout : out =
    ((Nat.eqb (length (_check_formatting float_str "" (formatting profile)
                 ++ _check_filing_rules "" (filing profile)
                 ++ _check_special_rules "" (special_rules profile))%list) 0,
      (_check_formatting float_str "" (formatting profile)
         ++ _check_filing_rules "" (filing profile)
         ++ _check_special_rules "" (special_rules profile))%list),
     [Exists path])).
  { subst out. unfold validate_document, get_profile. by rewrite Hp, Hf. }
  assert (Hempty : (validate_document float_str reg (<[path := ""]> fs)
                      path cid).1 = out.1).
  { rewrite Hout. unfold validate_document, get_profile.
    by rewrite Hp, lookup_insert_eq. }
  rewrite Hempty. rewrite Hout. cbn [fst snd].
  rewrite check_formatting_empty, check_filing_rules_empty,
    check_special_rules_empty.
  split; [done|]. split; [done|].
  split; [|split; [|split; [|split; [|split; [|split; [|split]]]]]].
  - intros Hfont. apply elem_of_app. left. apply elem_of_app. left.
    apply guard_elem. by destruct (font_family (formatting profile)).
  - intros Hls. apply elem_of_app. left. apply elem_of_app. right.
    apply guard_elem. by rewrite Hls.
  - intros H. apply elem_of_app. right. apply elem_of_app. left.
    apply elem_of_app. left. by apply guard_elem.
  - intros H. apply elem_of_app. right. apply elem_of_app. left.
    apply elem_of_app. right. apply elem_of_app. left. by apply guard_elem.
  - intros H. apply elem_of_app. right. apply elem_of_app. left.
    apply elem_of_app. right. apply elem_of_app. right. by apply guard_elem.
  - intros H. apply elem_of_app. right. apply elem_of_app. right.
    apply elem_of_app. left. by apply guard_elem.
  - intros H. apply elem_of_app. right. apply elem_of_app. right.
    apply elem_of_app. right. by apply guard_elem.
  - intros Hflag. apply Nat.eqb_eq, length_zero_iff_nil in Hflag.
    apply app_eq_nil in Hflag as [Hfmt Hrest].
    apply app_eq_nil in Hfmt as [H1 H2].
    apply app_eq_nil in Hrest as [Hfil Hspec].
    apply app_eq_nil in Hfil as [H3 [H4 H5]%app_eq_nil].
    apply app_eq_nil in Hspec as [H6 H7].
    apply guard_nil in H1, H2, H3, H4, H5, H6, H7.
    apply negb_false_iff in H1, H2. apply Nat.eqb_eq in H1.
    repeat split; try done.
    by destruct (font_family (formatting profile)).
Qed.

End EmptyDocument.

Lemma validate_document_missing_file_witness :
  _load_default_profiles !! "hi_family" = Some hi_family
  ∧ (∅ : gmap string string) !! "missing.tex" = None
  ∧ validate_document one_decimal_str _load_default_profiles ∅
      "missing.tex" "hi_family"
    = ((false,
        ["Required font 'Times New Roman' not specified";
         "Required line spacing 2.0 not set";
         "Certificate of Service required but not found";
         "Verification required but not found";
         "Pro se notice may be required for self-represented litigants"]),
       [Exists "missing.tex"])
  ∧ "Verification required but not found"
      ∈ (validate_document one_decimal_str _load_default_profiles ∅
           "missing.tex" "hi_family").1.2.
Proof.
  split; [reflexivity|]. split; [reflexivity|].
  split; [vm_compute; reflexivity|].
  exact (proj1 (proj2 (proj2 (proj2 (proj2 (proj2
           (validate_document_missing_file one_decimal_str
              _load_default_profiles ∅ "missing.tex" "hi_family" hi_family
              eq_refl eq_refl)))))) eq_refl).
Defined.

(** *** The family court profile *)

Section FamilyCourt.
Variable float_str : Q → string.

Lemma hi_family_formatting content :
  str_contains "\setmainfont{Times New Roman}" content = true →
  _check_formatting float_str content (formatting hi_family)
    `sublist_of` ["Required line spacing " +:+ float_str 2.0 +:+ " not set"].
Proof.
  intros Hfont. unfold _check_formatting.
  change (font_family (formatting hi_family)) with "Times New Roman".
  change (line_spacing (formatting hi_family)) with 2.0%Q.
  change ("\setmainfont{" +:+ "Times New Roman" +:+ "}")
    with "\setmainfont{Times New Roman}".
  rewrite Hfont. cbn [negb andb app].
  rewrite andb_false_r. cbn [app].
  destruct (negb (Qeq_bool 2.0 0) && _); [done|by constructor].
Qed.

Lemma hi_family_filing content :
  str_contains "certificate of service" (lower content) = true →
  str_contains "verification" (lower content) = true →
  _check_filing_rules content (filing hi_family) = [].
Proof.
  intros Hc Hv. unfold _check_filing_rules. rewrite Hc, Hv.
  reflexivity.
Qed.

Lemma hi_family_special content :
  _check_special_rules content (special_rules hi_family)
    `sublist_of`
      ["Pro se notice may be required for self-represented litigants"].
Proof.
  unfold _check_special_rules.
  change (flagged (special_rules hi_family) "pro_se_notice_required")
    with true.
  change (flagged (special_rules hi_family)
            "certificate_of_compliance_required") with false.
  cbn [andb app]. rewrite app_nil_r.
  destruct (negb _); [done|by constructor].
Qed.

(** X15.  Against the Hawaii family court profile, a document that
    carries the font directive for Times New Roman and, in any letter
    case, the words "certificate of service" and "verification" draws at
    most two violations, and only from these: the line-spacing directive
    and the pro se notice.  This is the bound the repository's compliance
    test asserts for its sample document. *)
Theorem validate_document_hi_family_marked (fs : gmap string string)
    path content :
  fs !! path = Some content →
  str_contains "\setmainfont{Times New Roman}" content = true →
  str_contains "certificate of service" (lower content) = true →
  str_contains "verification" (lower content) = true →
  let report :=
    (validate_document float_str _load_default_profiles fs path
       "hi_family").1 in
  report.2 `sublist_of`
    ["Required line spacing " +:+ float_str 2.0 +:+ " not set";
     "Pro se notice may be required for self-represented litigants"]
  ∧ (report.1 = true ∨ (length report.2 < 3)%nat).
Proof.
  intros Hf Hfont Hc Hv report.
  assert (Hs : report.2 `sublist_of`
    ["Required line spacing " +:+ float_str 2.0 +:+ " not set";
     "Pro se notice may be required for self-represented litigants"]).
  { subst report. unfold validate_document, get_profile.
    assert (Hp : _load_default_profiles !! "hi_family" = Some hi_family)
      by reflexivity.
    rewrite Hp, Hf. cbn [fst snd].
    rewrite (hi_family_filing content Hc Hv). cbn [app].
    apply (sublist_app _ [_] _ [_]).
    - by apply hi_family_formatting.
    - apply hi_family_special. }
  split; [exact Hs|]. right.
  apply sublist_length in Hs. simpl in Hs. lia.
Qed.

End FamilyCourt.

Lemma validate_document_hi_family_marked_witness :
  test_fs !! "test.tex" = Some test_document
  ∧ str_contains "\setmainfont{Times New Roman}" test_document = true
  ∧ str_contains "certificate of service" (lower test_document) = true
  ∧ str_contains "verification" (lower test_document) = true
  ∧ (validate_document one_decimal_str _load_default_profiles test_fs
       "test.tex" "hi_family").1.2
      `sublist_of`
        ["Required line spacing " +:+ one_decimal_str 2.0 +:+ " not set";
         "Pro se notice may be required for self-represented litigants"].
Proof.
  split; [reflexivity|]. split; [reflexivity|]. split; [reflexivity|].
  split; [reflexivity|].
  exact (proj1 (validate_document_hi_family_marked one_decimal_str test_fs
                  "test.tex" test_document eq_refl eq_refl eq_refl eq_refl)).
Defined.

End JurisdictionMore.

(** ** Further properties of the model router *)

Module FileBossMore.
Import FileBoss Notions Samples FileBossSpec.

(** *** Task names *)

Lemma TaskType_of_value_Some s t :
  TaskType_of_value s = Some t → s = TaskType_value t.
Proof.
  unfold TaskType_of_value.
  destruct (String.eqb_spec s "legal_research") as [->|?];
    [by intros [= <-]|].
  destruct (String.eqb_spec s "document_generation") as [->|?];
    [by intros [= <-]|].
  destruct (String.eqb_spec s "legal_analysis") as [->|?];
    [by intros [= <-]|].
  destruct (String.eqb_spec s "evidence_review") as [->|?];
    [by intros [= <-]|].
  destruct (String.eqb_spec s "citation_checking") as [->|?];
    [by intros [= <-]|].
  done.
Qed.

(** X16.  A task type is found again from its value, and only from its
    value; [select_model] treats every string that is no task type's
    value as "legal_analysis". *)
Theorem task_type_value_round_trip t s context_size priority :
  TaskType_of_value (TaskType_value t) = Some t
  ∧ (TaskType_of_value s = Some t ↔ s = TaskType_value t)
  ∧ ((∀ t', s ≠ TaskType_value t') →
     select_model s context_size priority
     = select_model "legal_analysis" context_size priority).
Proof.
  assert (Hrt : ∀ t', TaskType_of_value (TaskType_value t') = Some t')
    by (by intros []).
  split; [apply Hrt|]. split.
  - split; [apply TaskType_of_value_Some|by intros ->].
  - intros Hno. unfold select_model, candidates_for.
    destruct (TaskType_of_value s) as [t'|] eqn:Hs; [|done].
    apply TaskType_of_value_Some in Hs. by destruct (Hno t').
Qed.

(** *** Selection *)

Lemma first_min_elem {A} (key : A → Q) l m : first_min key l m → m ∈ l.
Proof. intros (i & Hi & _). by eapply list_elem_of_lookup_2. Qed.

Lemma first_max_elem {A} (key : A → Q) l m : first_max key l m → m ∈ l.
Proof. intros (i & Hi & _). by eapply list_elem_of_lookup_2. Qed.

Lemma select_model_candidate task_type context_size priority :
  candidates_for task_type context_size ≠ [] →
  select_model task_type context_size priority
    ∈ candidates_for task_type context_size.
Proof.
  intros Hne. unfold select_model.
  destruct (candidates_for task_type context_size) as [|c rest]; [done|].
  destruct (String.eqb priority "cost");
    [|destruct (String.eqb priority "speed")].
  - apply (first_min_elem cost_of), min_by_spec.
  - apply (first_min_elem latency_of), min_by_spec.
  - apply (first_max_elem reliability_of), max_by_spec.
Qed.

Lemma max_context_bound m : max_context (_initialize_profiles m) ≤ 200000.
Proof. destruct m; simpl; lia. Qed.

Lemma candidates_for_too_large task_type n :
  200000 < n → candidates_for task_type (Some n) = [].
Proof.
  intros Hn. unfold candidates_for.
  destruct (Z.eqb_spec n 0); [lia|].
  induction (_initialize_fallbacks _) as [|m l IH]; [done|].
  simpl. pose proof (max_context_bound m).
  destruct (Z.leb_spec n (max_context (_initialize_profiles m))); [lia|done].
Qed.

Lemma candidates_for_nonempty task_type context_size :
  candidates_for task_type context_size ≠ []
  ↔ ∃ m', m' ∈ _initialize_fallbacks
                 (default LEGAL_ANALYSIS (TaskType_of_value task_type))
          ∧ ∀ n, context_size = Some n → n ≠ 0 → n ≤ listed_context m'.
Proof.
  split.
  - intros Hne.
    destruct (candidates_for task_type context_size) as [|c rest] eqn:Hc;
      [done|].
    exists c. apply candidates_for_elem. rewrite Hc. apply list_elem_of_here.
  - intros (m' & Hm') Hnil. apply candidates_for_elem in Hm'.
    rewrite Hnil in Hm'. by apply elem_of_nil in Hm'.
Qed.

(** X17.  With a required context size, [select_model] returns a model of
    the task's chain whose listed context is large enough whenever the
    chain has such a model, the size being met with equality included.
    When the chain has none the answer is GPT-4 all the same: for a size
    above 200000 tokens, which no profile reaches, the model returned
    has a smaller context than asked for. *)
Theorem select_model_context task_type n priority :
  n ≠ 0 →
  let chain := _initialize_fallbacks
                 (default LEGAL_ANALYSIS (TaskType_of_value task_type)) in
  let m := select_model task_type (Some n) priority in
  ((∃ m', m' ∈ chain ∧ n ≤ listed_context m') →
   m ∈ chain ∧ n ≤ listed_context m
   ∧ n ≤ max_context (_initialize_profiles m))
  ∧ ((∀ m', m' ∈ chain → listed_context m' < n) → m = GPT4)
  ∧ (200000 < n →
     m = GPT4 ∧ listed_context m < n
     ∧ max_context (_initialize_profiles m) < n).
Proof.
  intros Hn chain m. subst chain m. split; [|split].
  - intros (m' & Hin & Hle).
    assert (Hne : candidates_for task_type (Some n) ≠ []).
    { apply candidates_for_nonempty. exists m'. split; [done|].
      by intros n' [= <-] _. }
    pose proof (select_model_candidate task_type (Some n) priority Hne)
      as Hsel.
    apply candidates_for_elem in Hsel as [Hsel Hctx].
    specialize (Hctx n eq_refl Hn).
    split; [done|]. split; [done|]. by rewrite max_context_listed.
  - intros Hall.
    assert (Hnil : candidates_for task_type (Some n) = []).
    { destruct (candidates_for task_type (Some n)) as [|c rest] eqn:Hc;
        [done|].
      assert (Hin : c ∈ candidates_for task_type (Some n))
        by (rewrite Hc; apply list_elem_of_here).
      apply candidates_for_elem in Hin as [Hin Hctx].
      specialize (Hctx n eq_refl Hn). specialize (Hall c Hin). lia. }
    unfold select_model. by rewrite Hnil.
  - intros Hbig. unfold select_model.
    rewrite candidates_for_too_large by done.
    split; [done|]. simpl. lia.
Qed.

Lemma select_model_context_witness :
  200000 ≠ 0
  ∧ (∃ m', m' ∈ _initialize_fallbacks
                  (default LEGAL_ANALYSIS
                     (TaskType_of_value "document_generation"))
           ∧ 200000 ≤ listed_context m')
  ∧ select_model "document_generation" (Some 200000) "quality"
    = CLAUDE_3_OPUS
  ∧ 200000 ≤ listed_context
               (select_model "document_generation" (Some 200000) "quality").
Proof.
  assert (H0 : 200000 ≠ 0) by lia.
  assert (Hex : ∃ m', m' ∈ _initialize_fallbacks
                        (default LEGAL_ANALYSIS
                           (TaskType_of_value "document_generation"))
                 ∧ 200000 ≤ listed_context m').
  { exists CLAUDE_3_OPUS. split; [apply list_elem_of_here|]. simpl. lia. }
  split; [exact H0|]. split; [exact Hex|]. split; [reflexivity|].
  exact (proj1 (proj2 (proj1 (select_model_context "document_generation"
                         200000 "quality" H0) Hex))).
Defined.

(** X18.  With the default "quality" priority, or any priority other
    than "cost" and "speed", [select_model] returns GPT-4 for every task
    type, known or not, unless a context size above 128000 and up to
    200000 tokens is asked for: GPT-4 is in every chain and has the
    highest reliability, so the order of a chain does not matter. *)
Theorem select_model_quality_is_gpt4 task_type context_size priority :
  priority ≠ "cost" → priority ≠ "speed" →
  (∀ n, context_size = Some n → n ≤ 128000 ∨ 200000 < n) →
  select_model task_type context_size priority = GPT4.
Proof.
  intros Hc Hs Hctx.
  destruct context_size as [n|].
  - destruct (Hctx n eq_refl) as [Hsmall|Hbig].
    + unfold select_model, candidates_for.
      apply String.eqb_neq in Hc, Hs. rewrite Hc, Hs.
      destruct (n =? 0);
        [by destruct (TaskType_of_value task_type) as [[]|]|].
      assert (H1 : (n <=? 128000) = true) by (apply Z.leb_le; lia).
      assert (H2 : (n <=? 200000) = true) by (apply Z.leb_le; lia).
      destruct (TaskType_of_value task_type) as [[]|];
        cbn [from_option id _initialize_fallbacks List.filter
             _initialize_profiles max_context];
        rewrite ?H1, ?H2;
        repeat match goal with
               | |- context [n <=? ?k] => destruct (n <=? k)
               end; reflexivity.
    + unfold select_model. by rewrite candidates_for_too_large.
  - unfold select_model, candidates_for.
    apply String.eqb_neq in Hc, Hs. rewrite Hc, Hs.
    by destruct (TaskType_of_value task_type) as [[]|].
Qed.

Lemma select_model_quality_is_gpt4_witness :
  "quality" ≠ "cost" ∧ "quality" ≠ "speed"
  ∧ (∀ n, Some 20000 = Some n → n ≤ 128000 ∨ 200000 < n)
  ∧ select_model "evidence_review" (Some 20000) "quality" = GPT4.
Proof.
  assert (Hc : "quality" ≠ "cost") by discriminate.
  assert (Hs : "quality" ≠ "speed") by discriminate.
  assert (Hn : ∀ n, Some 20000 = Some n → n ≤ 128000 ∨ 200000 < n)
    by (intros n [= <-]; left; lia).
  split; [exact Hc|]. split; [exact Hs|]. split; [exact Hn|].
  exact (select_model_quality_is_gpt4 "evidence_review" (Some 20000)
           "quality" Hc Hs Hn).
Defined.

(** *** Execution with fallback, in general *)

Lemma fallback_NoDup task_type : NoDup (_initialize_fallbacks task_type).
Proof.
  destruct task_type; by apply (bool_decide_unpack _).
Qed.

Lemma fallback_nonempty task_type : _initialize_fallbacks task_type ≠ [].
Proof. by destruct task_type. Qed.

Lemma prefix_last_NoDup {A} (k l : list A) :
  NoDup l → k `prefix_of` l → k ≠ [] → last k = last l → k = l.
Proof.
  intros Hnd [s ->] Hk Hlast.
  destruct s as [|x s _] using rev_ind; [by rewrite app_nil_r|].
  exfalso. rewrite app_assoc, last_snoc in Hlast.
  apply NoDup_app in Hnd as (_ & Hdis & _).
  apply (Hdis x).
  - by apply last_Some_elem_of.
  - apply elem_of_app. right. apply list_elem_of_here.
Qed.

Section ExecuteMore.
Context {World : Type}.
Variable time_time : World → Q.
Variable task_fn : ModelType → World → (string + string) * World.

(** The loop on any non-empty chain, told which model ends it: it
    returns from inside, after logging failures on a prefix of the chain
    and one last entry, which it returns. *)
Lemma walk_chain_outcome chain r w calls :
  chain ≠ [] →
  ∃ run fails res,
    walk_chain World time_time task_fn (last chain) chain r w calls = Some run
    ∧ result run = inr res
    ∧ performance_log (router run)
      = (performance_log r ++ fails ++ [res])%list
    ∧ invoked run = (calls ++ (model_used <$> (fails ++ [res])))%list
    ∧ (model_used <$> (fails ++ [res])%list) `prefix_of` chain
    ∧ Forall (λ e, success e = false) fails
    ∧ (success res = false → Some (model_used res) = last chain)
    ∧ (success res = true →
       ∃ w0 out w1, task_fn (model_used res) w0 = (inr out, w1))
    ∧ (success res = false →
       ∃ w0 err w1, task_fn (model_used res) w0 = (inl err, w1)).
Proof.
  revert r w calls.
  induction chain as [|m chain IH]; intros r w calls Hne; [done|].
  cbn [walk_chain]. destruct (task_fn m w) as [[err|out] w1] eqn:Hcall.
  - destruct (decide (Some m = last (m :: chain))) as [Hlast|Hnot].
    + eexists _, [], _. cbn [result router world invoked].
      split; [done|]. split; [done|]. split; [done|]. split; [done|].
      split; [by apply prefix_cons, prefix_nil|]. split; [done|].
      cbn [success model_used]. split; [done|]. split; [done|].
      intros _. eauto.
    + destruct chain as [|m' chain']; [done|].
      rewrite last_cons_cons in *.
      destruct (IH (log_append r {| success := false; output := None;
                      model_used := m;
                      execution_time := time_time w1 - time_time w;
                      tokens_used := 0; error := Some err |})
                   w1 (calls ++ [m])%list ltac:(done))
        as (run & fails & res & Hrun & Hres & Hlog & Hinv & Hpre & Hall
            & Hf & Hs & Hff).
      exists run, ({| success := false; output := None; model_used := m;
                      execution_time := time_time w1 - time_time w;
                      tokens_used := 0; error := Some err |} :: fails), res.
      split; [done|]. split; [done|].
      split; [rewrite Hlog; cbn [log_append performance_log];
              by rewrite <- app_assoc|].
      split; [rewrite Hinv; by rewrite <- app_assoc|].
      split; [by apply prefix_cons|].
      split; [by constructor|]. done.
  - eexists _, [], _. cbn [result router world invoked].
    split; [done|]. split; [done|]. split; [done|]. split; [done|].
    split; [by apply prefix_cons, prefix_nil|]. split; [done|].
    cbn [success model_used]. split; [done|]. split; [|done].
    intros _. eauto.
Qed.

Lemma execute_with_fallback_walk r task_type w :
  ∃ fails res,
    let run := execute_with_fallback World time_time task_fn r task_type w in
    result run = inr res
    ∧ performance_log (router run)
      = (performance_log r ++ fails ++ [res])%list
    ∧ invoked run = model_used <$> (fails ++ [res])%list
    ∧ invoked run `prefix_of` _initialize_fallbacks task_type
    ∧ Forall (λ e, success e = false) fails
    ∧ (success res = false → invoked run = _initialize_fallbacks task_type)
    ∧ (success res = true →
       ∃ w0 out w1, task_fn (model_used res) w0 = (inr out, w1))
    ∧ (success res = false →
       ∃ w0 err w1, task_fn (model_used res) w0 = (inl err, w1)).
Proof.
  destruct (walk_chain_outcome (_initialize_fallbacks task_type) r w []
              (fallback_nonempty task_type))
    as (run & fails & res & Hrun & Hres & Hlog & Hinv & Hpre & Hall
        & Hf & Hs & Hff).
  exists fails, res. unfold execute_with_fallback. rewrite Hrun.
  cbn zeta. rewrite app_nil_l in Hinv.
  split; [done|]. split; [done|]. split; [done|].
  split; [by rewrite Hinv|]. split; [done|]. split; [|done].
  intros Hfail. rewrite Hinv.
  apply prefix_last_NoDup; [apply fallback_NoDup|done| |].
  - rewrite fmap_app. by destruct (model_used <$> fails).
  - rewrite fmap_app. cbn [fmap list_fmap]. rewrite last_snoc.
    by apply Hf.
Qed.

(** X20.  When the task function returns on the first model of the
    chain, that is the only call: one success entry is logged, with the
    clock difference around the call as execution time and no token
    count, and it is the result. *)
Theorem execute_with_fallback_first r task_type w m1 rest out w1 :
  _initialize_fallbacks task_type = m1 :: rest →
  task_fn m1 w = (inr out, w1) →
  let run := execute_with_fallback World time_time task_fn r task_type w in
  let ok := {| success := true; output := Some out; model_used := m1;
               execution_time := time_time w1 - time_time w;
               tokens_used := 0; error := None |} in
  result run = inr ok
  ∧ performance_log (router run) = (performance_log r ++ [ok])%list
  ∧ invoked run = [m1]
  ∧ world run = w1.
Proof.
  intros Hchain Hcall run ok. subst run ok.
  unfold execute_with_fallback. rewrite Hchain.
  cbn [walk_chain]. rewrite Hcall. done.
Qed.

(** X21.  When the task function raises on every model, every model of
    the chain is called once, in chain order; the log gains one failure
    per model, and the result returned is the failure of the chain's
    last model. *)
Theorem execute_with_fallback_exhausted_chain r task_type w :
  (∀ m w0, ∃ err w1, task_fn m w0 = (inl err, w1)) →
  let run := execute_with_fallback World time_time task_fn r task_type w in
  invoked run = _initialize_fallbacks task_type
  ∧ ∃ fails res,
      result run = inr res
      ∧ success res = false
      ∧ Some (model_used res) = last (_initialize_fallbacks task_type)
      ∧ performance_log (router run)
        = (performance_log r ++ fails ++ [res])%list
      ∧ Forall (λ e, success e = false) fails
      ∧ length (fails ++ [res])%list
        = length (_initialize_fallbacks task_type).
Proof.
  intros Hfail run. subst run.
  destruct (execute_with_fallback_walk r task_type w)
    as (fails & res & Hres & Hlog & Hinv & Hpre & Hall & Hf & Hs & _).
  cbn zeta in *.
  assert (Hres_fail : success res = false).
  { destruct (success res) eqn:Hsucc; [|done].
    destruct (Hs eq_refl) as (w0 & out & w1 & Hcall).
    destruct (Hfail (model_used res) w0) as (err & w1' & Hcall').
    congruence. }
  specialize (Hf Hres_fail). split; [exact Hf|].
  exists fails, res. split; [done|]. split; [done|].
  split.
  { rewrite <- Hf, Hinv, fmap_app. cbn [fmap list_fmap].
    by rewrite last_snoc. }
  split; [done|]. split; [done|].
  by rewrite <- Hf, Hinv, length_fmap.
Qed.

End ExecuteMore.

Lemma execute_with_fallback_first_witness :
  _initialize_fallbacks EVIDENCE_REVIEW
    = [CLAUDE_3_SONNET; GPT4; LOCAL_LLAMA]
  ∧ flaky_task CLAUDE_3_SONNET 0%nat = (inr "analysis", 2%nat)
  ∧ invoked (execute_with_fallback nat nat_clock flaky_task new_router
               EVIDENCE_REVIEW 0%nat) = [CLAUDE_3_SONNET].
Proof.
  split; [reflexivity|]. split; [reflexivity|].
  exact (proj1 (proj2 (proj2 (execute_with_fallback_first nat_clock
           flaky_task new_router EVIDENCE_REVIEW 0%nat CLAUDE_3_SONNET
           [GPT4; LOCAL_LLAMA] "analysis" 2%nat eq_refl eq_refl)))).
Defined.

Lemma execute_with_fallback_exhausted_chain_witness :
  (∀ (m : ModelType) (w0 : nat), ∃ err w1, down_task m w0 = (inl err, w1))
  ∧ invoked (execute_with_fallback nat nat_clock down_task new_router
               CITATION_CHECKING 0%nat)
    = [CLAUDE_3_SONNET; LOCAL_LLAMA; GPT4].
Proof.
  assert (H : ∀ (m : ModelType) (w0 : nat),
            ∃ err w1, down_task m w0 = (inl err, w1))
    by (intros m w0; by eexists _, _).
  split; [exact H|].
  exact (proj1 (execute_with_fallback_exhausted_chain nat_clock down_task
                  new_router CITATION_CHECKING 0%nat H)).
Defined.

(** *** Performance statistics *)

Lemma ModelType_value_inj m m' :
  ModelType_value m = ModelType_value m' → m = m'.
Proof. by destruct m, m'. Qed.

Lemma count_model_cons res log m :
  count_model (res :: log) m
  = (if decide (model_used res = m) then 1 else 0) + count_model log m.
Proof.
  unfold count_model. cbn [List.filter].
  destruct (decide (model_used res = m)) as [Heq|Hne].
  - rewrite bool_decide_eq_true_2 by done. cbn [length]. lia.
  - rewrite bool_decide_eq_false_2 by done. lia.
Qed.

Lemma count_model_nonneg log m : 0 ≤ count_model log m.
Proof. unfold count_model. lia. Qed.

Lemma count_usage_lookup usage res m :
  count_usage usage res !! ModelType_value m
  = if decide (model_used res = m)
    then Some (default 0 (usage !! ModelType_value m) + 1)
    else usage !! ModelType_value m.
Proof.
  unfold count_usage. destruct (decide (model_used res = m)) as [->|Hne].
  - apply lookup_insert_eq.
  - apply lookup_insert_ne. intros Heq. by apply ModelType_value_inj in Heq.
Qed.

Lemma count_usage_other usage res s :
  (∀ m, s ≠ ModelType_value m) → count_usage usage res !! s = usage !! s.
Proof.
  intros Hs. unfold count_usage. apply lookup_insert_ne.
  intros Heq. by apply (Hs (model_used res)).
Qed.

(** The usage dictionary after a log: a model's entry is its old count
    plus its entries in the log, and is created by its first entry. *)
Lemma usage_lookup usage log m :
  foldl count_usage usage log !! ModelType_value m
  = if decide (count_model log m = 0) then usage !! ModelType_value m
    else Some (default 0 (usage !! ModelType_value m) + count_model log m).
Proof.
  revert usage. induction log as [|res log IH]; intros usage; [done|].
  cbn [foldl]. rewrite IH, count_usage_lookup, count_model_cons.
  pose proof (count_model_nonneg log m).
  destruct (decide (model_used res = m));
    repeat case_decide; try lia; try done; simpl; f_equal; lia.
Qed.

Lemma usage_lookup_other usage log s :
  (∀ m, s ≠ ModelType_value m) →
  foldl count_usage usage log !! s = usage !! s.
Proof.
  intros Hs. revert usage. induction log as [|res log IH]; intros usage;
    [done|].
  cbn [foldl]. by rewrite IH, count_usage_other.
Qed.

Lemma count_model_total log :
  count_model log GPT4 + count_model log CLAUDE_3_OPUS
  + count_model log CLAUDE_3_SONNET + count_model log PERPLEXITY
  + count_model log LOCAL_LLAMA
  = Z.of_nat (length log).
Proof.
  induction log as [|res log IH]; [done|].
  rewrite !count_model_cons. cbn [length].
  destruct (model_used res); repeat case_decide; try done; lia.
Qed.

Lemma success_count_le (log : list TaskResult) :
  (length (List.filter success log) ≤ length log)%nat.
Proof.
  induction log as [|res log IH]; [done|].
  simpl. destruct (success res); simpl; lia.
Qed.

Lemma ratio_bounds (a b : Z) :
  0 ≤ a ≤ b → 0 < b →
  (0 <= inject_Z a / inject_Z b)%Q ∧ (inject_Z a / inject_Z b <= 1)%Q.
Proof.
  intros Ha Hb.
  assert (Hb' : (0 < inject_Z b)%Q) by (unfold Qlt; simpl; lia).
  assert (Ha0 : (0 <= inject_Z a)%Q) by (unfold Qle; simpl; lia).
  assert (Hab : (inject_Z a <= inject_Z b)%Q) by (unfold Qle; simpl; lia).
  split.
  - apply Qle_shift_div_l; [exact Hb'|]. by rewrite Qmult_0_l.
  - apply Qle_shift_div_r; [exact Hb'|]. by rewrite Qmult_1_l.
Qed.

Lemma get_performance_stats_nonempty r :
  performance_log r ≠ [] →
  get_performance_stats r
  = Some {| total_tasks := Z.of_nat (length (performance_log r));
            success_rate :=
              inject_Z (Z.of_nat (length (List.filter success
                                            (performance_log r))))
              / inject_Z (Z.of_nat (length (performance_log r)));
            model_usage := foldl count_usage ∅ (performance_log r);
            avg_execution_time :=
              foldl (λ acc res, acc + execution_time res)%Q 0%Q
                    (performance_log r)
              / inject_Z (Z.of_nat (length (performance_log r))) |}.
Proof.
  unfold get_performance_stats. by destruct (performance_log r).
Qed.

(** X22.  [get_performance_stats] answers the empty dictionary exactly
    for an empty log, so the two divisions never see a zero.  Otherwise
    the total is the length of the log and is positive; the success
    rate lies between 0 and 1; the usage dictionary has an entry exactly
    for the models that occur in the log, under their value, holding the
    number of their entries; and the usage counts add up to the
    total. *)
Theorem get_performance_stats_spec r :
  (get_performance_stats r = None ↔ performance_log r = [])
  ∧ ∀ st, get_performance_stats r = Some st →
      total_tasks st = Z.of_nat (length (performance_log r))
      ∧ 0 < total_tasks st
      ∧ (0 <= success_rate st)%Q ∧ (success_rate st <= 1)%Q
      ∧ (∀ m, model_usage st !! ModelType_value m
              = if decide (count_model (performance_log r) m = 0) then None
                else Some (count_model (performance_log r) m))
      ∧ (∀ s, (∀ m, s ≠ ModelType_value m) → model_usage st !! s = None)
      ∧ usage_of st GPT4 + usage_of st CLAUDE_3_OPUS
        + usage_of st CLAUDE_3_SONNET + usage_of st PERPLEXITY
        + usage_of st LOCAL_LLAMA = total_tasks st.
Proof.
  destruct (decide (performance_log r = [])) as [Hnil|Hne].
  { unfold get_performance_stats. rewrite Hnil. by split. }
  rewrite (get_performance_stats_nonempty r Hne).
  split; [by split|].
  assert (Hpos : 0 < Z.of_nat (length (performance_log r))).
  { destruct (performance_log r); [done|simpl; lia]. }
  set (log := performance_log r) in *.
  intros st [= <-]. cbn [total_tasks success_rate model_usage].
  assert (Hu : ∀ m, foldl count_usage ∅ log !! ModelType_value m
             = if decide (count_model log m = 0) then None
               else Some (count_model log m)).
  { intros m. rewrite usage_lookup, lookup_empty. by case_decide. }
  split; [done|]. split; [done|].
  split; [|split; [|split; [|split]]].
  - apply ratio_bounds; [|done]. pose proof (success_count_le log). lia.
  - apply ratio_bounds; [|done]. pose proof (success_count_le log). lia.
  - exact Hu.
  - intros s Hs. by rewrite usage_lookup_other, lookup_empty.
  - unfold usage_of. cbn [model_usage]. rewrite !Hu.
    rewrite <- (count_model_total log).
    repeat case_decide; simpl; lia.
Qed.

(** The statistics after the flaky run on a fresh router. *)
Example get_performance_stats_demo :
  let run := execute_with_fallback nat nat_clock flaky_task new_router
               LEGAL_ANALYSIS 0%nat in
  (λ st, (total_tasks st, Qred (success_rate st),
          usage_of st GPT4, usage_of st CLAUDE_3_OPUS,
          usage_of st CLAUDE_3_SONNET, Qred (avg_execution_time st)))
    <$> get_performance_stats (router run)
  = Some (2, (1 # 2)%Q, 1, 1, 0, (3 # 2)%Q).
Proof. vm_compute. reflexivity. Qed.

(** *** Calls that may not come back *)

Section ExecuteAnyMore.
Context {World : Type}.
Variable time_time : World → Q.
Variable task : ModelType → World → Outcome * World.

(** The loop on any non-empty chain.  It records failures on an initial
    part of the chain, and then either a call does not come back, or one
    last entry is recorded and returned. *)
Lemma walk_chain_any_outcome chain r w calls :
  chain ≠ [] →
  ∃ fails,
    Forall (λ e, success e = false) fails
    ∧ ((∃ u m,
          walk_chain_any World time_time task (last chain) chain r w calls
            = Some (inl u)
          ∧ performance_log (router_left u)
            = (performance_log r ++ fails)%list
          ∧ invoked_so_far u
            = (calls ++ (model_used <$> fails) ++ [m])%list
          ∧ ((model_used <$> fails) ++ [m])%list `prefix_of` chain
          ∧ ∃ w0 w1, task m w0 = (Escaped, w1))
       ∨ (∃ run res,
            walk_chain_any World time_time task (last chain) chain r w calls
              = Some (inr run)
            ∧ result run = inr res
            ∧ performance_log (router run)
              = (performance_log r ++ fails ++ [res])%list
            ∧ invoked run
              = (calls ++ (model_used <$> (fails ++ [res])))%list
            ∧ (model_used <$> (fails ++ [res])%list) `prefix_of` chain
            ∧ (success res = false → Some (model_used res) = last chain))).
Proof.
  revert r w calls.
  induction chain as [|m chain IH]; intros r w calls Hne; [done|].
  cbn [walk_chain_any].
  destruct (task m w) as [[out|err|] w1] eqn:Hcall.
  - exists []. split; [done|]. right. eexists _, _.
    cbn [result router invoked].
    split; [done|]. split; [done|]. split; [done|]. split; [done|].
    split; [by apply prefix_cons, prefix_nil|]. done.
  - destruct (decide (Some m = last (m :: chain))) as [Hlast|Hnot].
    + exists []. split; [done|]. right. eexists _, _.
      cbn [result router invoked].
      split; [done|]. split; [done|]. split; [done|]. split; [done|].
      split; [by apply prefix_cons, prefix_nil|]. done.
    + destruct chain as [|m' chain']; [done|].
      rewrite last_cons_cons in *.
      destruct (IH (log_append r {| success := false; output := None;
                      model_used := m;
                      execution_time := time_time w1 - time_time w;
                      tokens_used := 0; error := Some err |})
                   w1 (calls ++ [m])%list ltac:(done))
        as (fails & Hall & Hcases).
      exists ({| success := false; output := None; model_used := m;
                 execution_time := time_time w1 - time_time w;
                 tokens_used := 0; error := Some err |} :: fails).
      split; [by constructor|].
      destruct Hcases as [(u & m0 & Hw & Hlog & Hinv & Hpre & Hesc)
                         |(run & res & Hw & Hres & Hlog & Hinv & Hpre & Hf)].
      * left. exists u, m0. split; [done|].
        split; [rewrite Hlog; cbn [log_append performance_log];
                by rewrite <- app_assoc|].
        split; [rewrite Hinv; by rewrite <- app_assoc|].
        split; [by apply prefix_cons|]. done.
      * right. exists run, res. split; [done|]. split; [done|].
        split; [rewrite Hlog; cbn [log_append performance_log];
                by rewrite <- app_assoc|].
        split; [rewrite Hinv; by rewrite <- app_assoc|].
        split; [by apply prefix_cons|]. done.
  - exists []. split; [done|]. left. eexists _, m.
    cbn [router_left invoked_so_far].
    split; [done|]. split; [by rewrite app_nil_r|]. split; [done|].
    split; [by apply prefix_cons, prefix_nil|]. eauto.
Qed.

Lemma walk_chain_any_comes_back lst chain r w calls :
  comes_back task →
  walk_chain_any World time_time task lst chain r w calls
  = inr <$> walk_chain World time_time (caught task) lst chain r w calls.
Proof.
  intros Hback. revert r w calls.
  induction chain as [|m chain IH]; intros r w calls; [done|].
  cbn [walk_chain_any walk_chain]. unfold caught at 1.
  pose proof (Hback m w) as Hm.
  destruct (task m w) as [[out|err|] w1]; [done| |done].
  destruct (decide (Some m = lst)); [done|]. apply IH.
Qed.

(** X19.  A call of [execute_with_fallback] goes one of two ways.  The
    task function is called on an initial part of the task's chain, in
    chain order, and every call but the last raises an [Exception] and
    is logged as a failure after the old entries.  Then either the last
    call does not come back (it raises outside [Exception], or never
    returns): nothing is logged for it and nothing is returned.  Or the
    last call is logged too and its entry is the result returned; if
    that result is a failure, the whole chain has been called.  When
    every call of the task function comes back, the second way is the
    only one, so the unlogged "No models available" result is never what
    comes back. *)
Theorem execute_with_fallback_outcome r task_type w :
  (∃ fails,
     Forall (λ e, success e = false) fails
     ∧ ((∃ u m,
           execute_with_fallback_any World time_time task r task_type w
             = inl u
           ∧ performance_log (router_left u)
             = (performance_log r ++ fails)%list
           ∧ invoked_so_far u = ((model_used <$> fails) ++ [m])%list
           ∧ invoked_so_far u `prefix_of` _initialize_fallbacks task_type
           ∧ ∃ w0 w1, task m w0 = (Escaped, w1))
        ∨ (∃ run res,
             execute_with_fallback_any World time_time task r task_type w
               = inr run
             ∧ result run = inr res
             ∧ performance_log (router run)
               = (performance_log r ++ fails ++ [res])%list
             ∧ invoked run = model_used <$> (fails ++ [res])%list
             ∧ invoked run `prefix_of` _initialize_fallbacks task_type
             ∧ (success res = false →
                invoked run = _initialize_fallbacks task_type))))
  ∧ (comes_back task →
     execute_with_fallback_any World time_time task r task_type w
     = inr (execute_with_fallback World time_time (caught task)
              r task_type w)).
Proof.
  split.
  - destruct (walk_chain_any_outcome (_initialize_fallbacks task_type) r w []
                (fallback_nonempty task_type))
      as (fails & Hall & Hcases).
    exists fails. split; [done|]. unfold execute_with_fallback_any.
    destruct Hcases as [(u & m & Hw & Hlog & Hinv & Hpre & Hesc)
                       |(run & res & Hw & Hres & Hlog & Hinv & Hpre & Hf)].
    + left. exists u, m. rewrite Hw. rewrite app_nil_l in Hinv.
      split; [done|]. split; [done|]. split; [done|].
      split; [by rewrite Hinv|]. done.
    + right. exists run, res. rewrite Hw. rewrite app_nil_l in Hinv.
      split; [done|]. split; [done|]. split; [done|]. split; [done|].
      split; [by rewrite Hinv|].
      intros Hfail. rewrite Hinv.
      apply prefix_last_NoDup; [apply fallback_NoDup|done| |].
      * rewrite fmap_app. by destruct (model_used <$> fails).
      * rewrite fmap_app. cbn [fmap list_fmap]. rewrite last_snoc.
        by apply Hf.
  - intros Hback.
    unfold execute_with_fallback_any, execute_with_fallback.
    rewrite walk_chain_any_comes_back by done.
    by destruct (walk_chain _ _ _ _ _ _ _ _).
Qed.


End ExecuteAnyMore.



(** A keyboard interrupt during the first call: the call is made, nothing
    is logged, nothing is returned, and the statistics of a fresh router
    stay the empty dictionary. *)
Example execute_with_fallback_interrupted :
  execute_with_fallback_any nat nat_clock interrupted_task new_router
    LEGAL_ANALYSIS 0%nat
  = inl {| router_left := new_router; world_left := 1%nat;
           invoked_so_far := [GPT4] |}
  ∧ get_performance_stats new_router = None.
Proof. split; reflexivity. Qed.

(** An interrupt after a logged failure leaves the failure in the log. *)
Example execute_with_fallback_interrupted_late :
  match execute_with_fallback_any nat nat_clock
          (λ m w, match m with
                  | CLAUDE_3_SONNET => (Raised "overloaded", S w)
                  | _ => (Escaped, S w)
                  end)
          new_router EVIDENCE_REVIEW 0%nat with
  | inl u => (success <$> performance_log (router_left u),
              model_used <$> performance_log (router_left u),
              invoked_so_far u)
             = ([false], [CLAUDE_3_SONNET], [CLAUDE_3_SONNET; GPT4])
  | inr _ => False
  end.
Proof. reflexivity. Qed.

End FileBossMore.
